(** * Root-finding solvers of [main.py]: bisection, secant, Newton and the
    difference quotient.

    A shallow embedding of the four functions of [src/main.py] and the
    properties of their control flow.

    Numbers.  The four functions are first modelled in exact arithmetic:
    Python's [int | float] arguments and the evaluator's values are the
    rationals [Q], [+], [-], [*], [/] and [abs] are the field operations,
    [<], [>=] and [==] are the numeric comparisons.  Every division of the
    source is by the literal [2] or is guarded by an explicit test of the
    divisor against zero, so no division raises.  What is proved of this
    model about calls, counts, exceptions and the order of tests does not
    depend on how the arithmetic rounds.  What is proved of it about the
    values computed is marked as holding in exact arithmetic: rounding,
    underflow and overflow of IEEE doubles can break it in the running code.
    The module [Double] models [bisection] a second time, on binary64
    doubles with Python's conversion [float(a)], and the properties of
    [bisection] that rounding decides are stated there.  The example function
    [func] and its derivatives use the exponential, so they are modelled over
    the real numbers.

    Effects.  A function body is a computation over a [world] that may finish
    normally, execute [return], or raise an exception.  The world holds the
    lines printed so far and, as instrumentation, the evaluator calls made so
    far; the evaluators themselves are deterministic: a function from the
    argument to a value or to the exception raised. *)

From Stdlib Require Import ZArith QArith Qabs List String Bool Lia Lqa.
From Stdlib Require Import DecimalString Qpower Qminmax.
From Stdlib Require Reals Lra Floats.
Import ListNotations.

Open Scope Q_scope.

(** ** Numeric comparisons *)

Definition Qlt_bool (x y : Q) : bool := negb (Qle_bool y x).

Infix "<?" := Qlt_bool (at level 70, no associativity) : Q_scope.
Infix "<=?" := Qle_bool (at level 70, no associativity) : Q_scope.
Infix "==?" := Qeq_bool (at level 70, no associativity) : Q_scope.
Notation "x >? y" := (Qlt_bool y x)
  (at level 70, no associativity, only parsing) : Q_scope.
Notation "x >=? y" := (Qle_bool y x)
  (at level 70, no associativity, only parsing) : Q_scope.

(** [float(a)]: the conversion is the identity on exact numbers. *)
Definition float (x : Q) : Q := x.

(** [str(n)] of an integer, as the f-string of [bisection] formats it. *)
Definition str (n : Z) : string := NilZero.string_of_int (Z.to_int n).

(** ** Exceptions, evaluators and the world *)

(** A Python exception (an instance of [Exception]): its class and message. *)
Inductive exn : Type :=
| Exc (cls : string) (msg : string).

(** Raised by the interpreter when a local is read before any assignment. *)
Definition UnboundLocalError (name : string) : exn :=
  Exc "UnboundLocalError"
      ("cannot access local variable '" ++ name
         ++ "' where it is not associated with a value").

(** What a call of a Python function produces. *)
Inductive result (A : Type) : Type :=
| Ok (v : A)
| Raises (e : exn).
Arguments Ok {A} v.
Arguments Raises {A} e.

(** [Callable[[float], float]]: a deterministic evaluator. *)
Definition evaluator : Type := Q -> result Q.

(** The role in which an evaluator is called. *)
Inductive callee : Type := Fn_f | Fn_df | Fn_ddf.

Record world : Type := mkWorld {
  stdout : list string;        (* lines printed, oldest first *)
  calls : list (callee * Q)    (* evaluator calls made, oldest first *)
}.

(** ** Statements *)

Inductive signal (R A : Type) : Type :=
| Normal (v : A)       (* fell through with a value *)
| Returned (r : R)     (* executed [return r] *)
| Raised (e : exn).    (* an exception is propagating *)
Arguments Normal {R A} v.
Arguments Returned {R A} r.
Arguments Raised {R A} e.

Definition stmt (R A : Type) : Type := world -> signal R A * world.

Definition ret {R A : Type} (v : A) : stmt R A :=
  fun w => (Normal v, w).

Definition bind {R A B : Type} (m : stmt R A) (k : A -> stmt R B) : stmt R B :=
  fun w =>
    match m w with
    | (Normal v, w') => k v w'
    | (Returned r, w') => (Returned r, w')
    | (Raised e, w') => (Raised e, w')
    end.

Definition return_ {R A : Type} (r : R) : stmt R A :=
  fun w => (Returned r, w).

Definition raise {R A : Type} (e : exn) : stmt R A :=
  fun w => (Raised e, w).

(** [try: m  except Exception as e: handler e] *)
Definition try_except {R A : Type} (m : stmt R A) (handler : exn -> stmt R A)
  : stmt R A :=
  fun w =>
    match m w with
    | (Raised e, w') => handler e w'
    | out => out
    end.

(** [if c: m] with no [else]. *)
Definition when {R : Type} (c : bool) (m : stmt R unit) : stmt R unit :=
  if c then m else ret tt.

Definition print {R : Type} (line : string) : stmt R unit :=
  fun w => (Normal tt, {| stdout := stdout w ++ [line]; calls := calls w |}).

(** [f(x)] for an evaluator [f] called in role [who]. *)
Definition call {R : Type} (who : callee) (f : evaluator) (x : Q) : stmt R Q :=
  fun w =>
    (match f x with Ok y => Normal y | Raises e => Raised e end,
     {| stdout := stdout w; calls := calls w ++ [(who, x)] |}).

(** Reading a local that may not have been assigned yet. *)
Definition read_local {R A : Type} (name : string) (v : option A) : stmt R A :=
  match v with
  | Some x => ret x
  | None => raise (UnboundLocalError name)
  end.

Declare Scope py_scope.
Delimit Scope py_scope with py.
Notation "x <- m ;; k" := (bind m (fun x => k))
  (at level 100, m at next level, right associativity) : py_scope.
Notation "' p <- m ;; k" := (bind m (fun x => let p := x in k))
  (at level 100, p pattern, m at next level, right associativity) : py_scope.
Notation "m ;; k" := (bind m (fun _ => k))
  (at level 100, right associativity) : py_scope.
Open Scope py_scope.

(** [range(start, stop)] *)
Definition range (start stop : Z) : list Z :=
  map (fun k => (start + Z.of_nat k)%Z) (seq 0 (Z.to_nat (stop - start))).

(** [for x in xs: body], the locals the body assigns threaded as [s]. *)
Fixpoint for_ {R S : Type} (xs : list Z) (body : Z -> S -> stmt R S) (s : S)
  : stmt R S :=
  match xs with
  | [] => ret s
  | x :: xs' => bind (body x s) (for_ xs' body)
  end.

(** [def]: the call of a function whose body is [body].  Every path of the
    bodies below ends in [return] or raises, so a body never falls through. *)
Definition def {R : Type} (body : stmt R Empty_set)
  : world -> result R * world :=
  fun w =>
    match body w with
    | (Normal v, w') => match v with end
    | (Returned r, w') => (Ok r, w')
    | (Raised e, w') => (Raises e, w')
    end.

(** ** [bisection] *)

(** The locals of [bisection] that are live across its loop. *)
Record bisection_locals : Type := mkBisection {
  f_a : Q;
  f_b : Q;
  iter_count : Z;
  current_a : Q;
  current_b : Q
}.

(** Lines 113-133: one pass of the loop body. *)
Definition bisection_body (f : evaluator) (epsilon : Q)
    (i : Z) (st : bisection_locals) : stmt (option (Q * Z)) bisection_locals :=
  let iter_count := i in
  let c := (current_a st + current_b st) / 2 in
  f_c <- try_except (call Fn_f f c) (fun _ => return_ None) ;;
  when (Qabs f_c <? epsilon) (return_ (Some (c, iter_count))) ;;
  if f_a st * f_c <? 0 then
    ret (mkBisection (f_a st) (f_b st) iter_count (current_a st) c)
  else if f_c * f_b st <? 0 then
    ret (mkBisection (f_a st) (f_b st) iter_count c (current_b st))
  else
    return_ (Some (c, iter_count)).

Definition bisection_notice (max_iter : Z) : string :=
  ("Maksymalna liczba iteracji (" ++ str max_iter
     ++ "). Wynik może nie być idealnie dokładny.")%string.

Definition bisection (a b : Q) (f : evaluator) (epsilon : Q) (max_iter : Z)
  : world -> result (option (Q * Z)) * world :=
  def (
    when (a >=? b) (return_ None) ;;
    ' (f_a, f_b) <-
      try_except
        (f_a <- call Fn_f f (float a) ;;
         f_b <- call Fn_f f (float b) ;;
         ret (f_a, f_b))
        (fun _ => return_ None) ;;
    when (f_a * f_b >? 0) (return_ None) ;;
    when (Qabs f_a <? epsilon) (return_ (Some (float a, 0%Z))) ;;
    when (Qabs f_b <? epsilon) (return_ (Some (float b, 0%Z))) ;;
    st <- for_ (range 1 (max_iter + 1)) (bisection_body f epsilon)
               (mkBisection f_a f_b 0 (float a) (float b)) ;;
    let c_final := (current_a st + current_b st) / 2 in
    print (bisection_notice max_iter) ;;
    return_ (Some (c_final, max_iter))).

(** ** [secant] *)

(** The locals of [secant] that are live across its loop; [c] is unbound
    until the first pass assigns it. *)
Record secant_locals : Type := mkSecant {
  sec_a : Q;
  sec_b : Q;
  sec_fa : Q;
  sec_fb : Q;
  sec_i : Z;
  sec_c : option Q
}.

(** Lines 156-175: one pass of the loop body. *)
Definition secant_body (f : evaluator) (epsilon : Q)
    (_ : Z) (st : secant_locals) : stmt (option (Q * Z)) secant_locals :=
  let a := sec_a st in
  let b := sec_b st in
  let fa := sec_fa st in
  let fb := sec_fb st in
  let i := (sec_i st + 1)%Z in
  when (fb ==? fa) (return_ None) ;;
  let c := b - fb * (b - a) / (fb - fa) in
  fc <- call Fn_f f c ;;
  when ((Qabs fc <? epsilon) || (Qabs (c - b) <? epsilon))
       (return_ (Some (c, i))) ;;
  if fa * fc <? 0 then
    ret (mkSecant a c fa fc i (Some c))
  else
    ret (mkSecant c b fc fb i (Some c)).

Definition secant (a b : Q) (f : evaluator) (epsilon : Q) (max_iters : Z)
  : world -> result (option (Q * Z)) * world :=
  def (
    fa <- call Fn_f f a ;;
    fb <- call Fn_f f b ;;
    when (fa * fb >=? 0) (return_ None) ;;
    st <- for_ (range 0 max_iters) (secant_body f epsilon)
               (mkSecant a b fa fb 0 None) ;;
    c <- read_local "c" (sec_c st) ;;
    return_ (Some (c, sec_i st))).

(** ** [difference_quotient] *)

Definition difference_quotient (f : evaluator) (x h : Q)
  : world -> result (option Q) * world :=
  def (
    when (h ==? 0) (return_ None) ;;
    u <- call Fn_f f (x + h) ;;
    v <- call Fn_f f x ;;
    return_ (Some ((u - v) / h))).

(** ** [newton] *)

(** Lines 200-205: the choice of the starting point. *)
Definition newton_start {R : Type} (f ddf : evaluator) (a b : Q) : stmt R Q :=
  f_at_a <- call Fn_f f a ;;
  ddf_at_a <- call Fn_ddf ddf a ;;
  if f_at_a * ddf_at_a >? 0 then ret a
  else
    f_at_b <- call Fn_f f b ;;
    ddf_at_b <- call Fn_ddf ddf b ;;
    if f_at_b * ddf_at_b >? 0 then ret b
    else ret ((a + b) / 2).

(** The locals of [newton] that are live across its loop. *)
Record newton_locals : Type := mkNewton {
  x_curr : Q;
  iteration : Z
}.

(** Lines 209-220: one pass of the loop body.  The second operand of [or]
    is evaluated only when the first is false. *)
Definition newton_body (f df : evaluator) (epsilon : Q)
    (_ : Z) (st : newton_locals) : stmt (option (Q * Z)) newton_locals :=
  let x_curr := x_curr st in
  let iteration := (iteration st + 1)%Z in
  deriv_val <- call Fn_df df x_curr ;;
  when (deriv_val ==? 0) (return_ None) ;;
  f_at_x <- call Fn_f f x_curr ;;
  let x_new := x_curr - f_at_x / deriv_val in
  converged <-
    (if Qabs (x_new - x_curr) <? epsilon then ret true
     else f_at_new <- call Fn_f f x_new ;; ret (Qabs f_at_new <? epsilon)) ;;
  when converged (return_ (Some (x_new, iteration))) ;;
  ret (mkNewton x_new iteration).

(** Lines 207-222: the iteration from a given starting point. *)
Definition newton_iterate (f df : evaluator) (epsilon : Q) (max_iter : Z)
    (x_start : Q) : stmt (option (Q * Z)) Empty_set :=
  st <- for_ (range 0 max_iter) (newton_body f df epsilon)
             (mkNewton x_start 0) ;;
  return_ (Some (x_curr st, iteration st)).

Definition newton (f df ddf : evaluator) (a b : Q) (epsilon : Q) (max_iter : Z)
  : world -> result (option (Q * Z)) * world :=
  def (
    x_curr <- newton_start f ddf a b ;;
    newton_iterate f df epsilon max_iter x_curr).

(** An evaluator that never raises. *)
Definition total (g : Q -> Q) : evaluator := fun x => Ok (g x).

(** The value an evaluator gives at [x]; where it raises there is none, and
    nothing below depends on the [0] that stands for it. *)
Definition value_at (f : evaluator) (x : Q) : Q :=
  match f x with
  | Ok y => y
  | Raises _ => 0
  end.

(** The evaluator that plays each role in a call of [newton]; [bisection],
    [secant] and [difference_quotient] only call [f]. *)
Definition roles (f df ddf : evaluator) (who : callee) : evaluator :=
  match who with
  | Fn_f => f
  | Fn_df => df
  | Fn_ddf => ddf
  end.

(** * Reasoning about statements *)

(** Statements only ever append to the world. *)
Definition extend (w : world) (out : list string) (cs : list (callee * Q))
  : world :=
  {| stdout := stdout w ++ out; calls := calls w ++ cs |}.

(** How a statement was left, forgetting the value it fell through with. *)
Inductive exit (R : Type) : Type :=
| ENormal
| EReturned (r : R)
| ERaised (e : exn).
Arguments ENormal {R}.
Arguments EReturned {R} r.
Arguments ERaised {R} e.

Definition exit_of {R A : Type} (s : signal R A) : exit R :=
  match s with
  | Normal _ => ENormal
  | Returned r => EReturned r
  | Raised e => ERaised e
  end.

Definition exit_of_result {R : Type} (r : result R) : exit R :=
  match r with
  | Ok v => EReturned v
  | Raises e => ERaised e
  end.

(** [emits m s out cs]: from every world, [m] leaves with [s] after printing
    [out] and making the calls [cs]. *)
Definition emits {R A : Type} (m : stmt R A) (s : signal R A)
    (out : list string) (cs : list (callee * Q)) : Prop :=
  forall w, m w = (s, extend w out cs).

(** [sat Phi m]: [m] is oblivious of the world it starts from, and its calls
    and exit satisfy [Phi]. *)
Definition sat {R A : Type} (Phi : list (callee * Q) -> exit R -> Prop)
    (m : stmt R A) : Prop :=
  exists s out cs, emits m s out cs /\ Phi cs (exit_of s).

(** The same for a function call. *)
Definition sat_def {R : Type} (Phi : list (callee * Q) -> exit R -> Prop)
    (fn : world -> result R * world) : Prop :=
  exists r out cs,
    (forall w, fn w = (r, extend w out cs)) /\ Phi cs (exit_of_result r).

(** A property of traces that statements in sequence preserve. *)
Definition sequential {R : Type} (Phi : list (callee * Q) -> exit R -> Prop)
  : Prop :=
  Phi [] ENormal /\
  forall c1 c2 x, Phi c1 ENormal -> Phi c2 x -> Phi (c1 ++ c2) x.

(** ** Properties of traces *)

(** Every call of the trace gave a value. *)
Definition clean (ev : callee -> evaluator) (cs : list (callee * Q)) : Prop :=
  Forall (fun p => exists y, ev (fst p) (snd p) = Ok y) cs.

(** The last call of the trace raised [e]; the calls before it gave values. *)
Definition faulted (ev : callee -> evaluator) (cs : list (callee * Q))
    (e : exn) : Prop :=
  exists cs0 who x,
    cs = cs0 ++ [(who, x)] /\ clean ev cs0 /\ ev who x = Raises e.

(** An exception of an evaluator leaves the statement as it is. *)
Definition propagating {R : Type} (ev : callee -> evaluator)
    (cs : list (callee * Q)) (x : exit R) : Prop :=
  clean ev cs \/ exists e, faulted ev cs e /\ x = ERaised e.

(** An exception of an evaluator is turned into [return None], and nothing
    is raised. *)
Definition catching {A : Type} (ev : callee -> evaluator)
    (cs : list (callee * Q)) (x : exit (option A)) : Prop :=
  (forall e, x <> ERaised e) /\
  (clean ev cs \/ exists e, faulted ev cs e /\ x = EReturned None).

(** [return None] happens exactly when a call of [df] gave zero. *)
Definition flat_tangent {A : Type} (df : evaluator)
    (cs : list (callee * Q)) (x : exit (option A)) : Prop :=
  (forall p y, In (Fn_df, p) cs -> df p = Ok y -> y == 0 ->
               x = EReturned None) /\
  (x = EReturned None ->
   exists p y, In (Fn_df, p) cs /\ df p = Ok y /\ y == 0).

(** [df] is not called and [None] is not returned. *)
Definition without_df {A : Type}
    (cs : list (callee * Q)) (x : exit (option A)) : Prop :=
  (forall p, ~ In (Fn_df, p) cs) /\ x <> EReturned None.

(** [x] and [y] have the same sign (negative, zero or positive). *)
Definition same_sign (x y : Q) : Prop := (x ?= 0) = (y ?= 0).

(** The invariant of the loop of [bisection]: the cached values have
    opposite signs, and the function keeps at each current endpoint the sign
    it had at the original one. *)
Definition brackets (f : evaluator) (st : bisection_locals) : Prop :=
  f_a st * f_b st < 0 /\
  same_sign (value_at f (current_a st)) (f_a st) /\
  same_sign (value_at f (current_b st)) (f_b st).

(** The invariant of the loop of [secant]: the two cached values have
    opposite signs and the two points lie in [[lo, hi]]. *)
Definition secant_brackets (lo hi : Q) (st : secant_locals) : Prop :=
  sec_fa st * sec_fb st < 0 /\
  lo <= sec_a st /\ sec_a st <= hi /\
  lo <= sec_b st /\ sec_b st <= hi.

(** ** [func], [dfunc], [ddfunc]

    The three functions of lines 11-80 on a scalar argument, over the real
    numbers: [np.exp] is the exponential, [x**2] the square.  The test of the
    argument's type that opens each of them admits every number, so it never
    raises here. *)

Section RealModel.
Import Reals.
Local Open Scope R_scope.

Definition func (x : R) : R := exp (-2 * x) + x ^ 2 - 1.

Definition dfunc (x : R) : R := -2 * exp (-2 * x) + 2 * x.

Definition ddfunc (x : R) : R := 4 * exp (-2 * x) + 2.

End RealModel.

(** Whether a call of the trace is a call of [df]. *)
Definition is_df (p : callee * Q) : bool :=
  match fst p with
  | Fn_df => true
  | _ => false
  end.

(** ** Evaluators and inputs of the examples *)

(** The world before anything was printed or called. *)
Definition w0 : world := mkWorld [] [].

(** [x * x - 1/2], with its two derivatives: a sign change over [0, 1]. *)
Definition parabola (x : Q) : Q := x * x - (1 # 2).
Definition sq : evaluator := total parabola.
Definition dsq : evaluator := total (fun x => 2 * x).
Definition ddsq : evaluator := total (fun _ => 2).

(** A quadratic with coefficients [p], [q], [r]. *)
Definition quadratic (p q r : Q) : evaluator :=
  total (fun t => p * t * t + q * t + r).

(** The same function, raising strictly inside [0, 1]. *)
Definition domain_error : exn := Exc "ValueError" "math domain error".
Definition on_the_left (x : Q) : result Q :=
  if (0 <? x) && (x <? 1) then Raises domain_error else Ok (parabola x).

(** * [bisection] on IEEE doubles

    The numbers of the model above are exact.  The module below gives
    [bisection] the numbers Python computes with: an argument is an [int] or
    a [float], a [float] is a binary64 double with the operations of IEEE 754
    (round to nearest, ties to even; signed zeros, infinities and NaN), and
    [float(a)] rounds an integer to the nearest double or raises
    [OverflowError].  The statements are those of the model above, over a
    world whose log of calls holds doubles. *)

Module Double.
Import Floats.
Local Open Scope float_scope.

(** A Python [float]. *)
Abbreviation double := PrimFloat.float (only parsing).

(** A Python number, [int | float]. *)
Inductive number : Type :=
| Int (z : Z)
| Float (x : double).

(** The double nearest to an integer; none when the integer is beyond the
    range of doubles. *)
Definition as_double (a : number) : option double :=
  match a with
  | Float x => Some x
  | Int z =>
      match binary_normalize prec emax z 0 false with
      | S754_infinity _ => None
      | x => Some (SF2Prim x)
      end
  end.

(** An integer against a double, compared exactly as Python compares them;
    a NaN compares with nothing. *)
Definition Zcompare_double (z : Z) (y : double) : option comparison :=
  match Prim2SF y with
  | S754_nan => None
  | S754_zero _ => Some (z ?= 0)%Z
  | S754_infinity s => Some (if s then Gt else Lt)
  | S754_finite s m e =>
      let v := if s then Zneg m else Zpos m in
      Some (if (0 <=? e)%Z then (z ?= v * 2 ^ e)%Z
            else (z * 2 ^ (- e) ?= v)%Z)
  end.

(** [a >= b] *)
Definition ge (a b : number) : bool :=
  match a, b with
  | Int x, Int y => (y <=? x)%Z
  | Float x, Float y => y <=? x
  | Int x, Float y =>
      match Zcompare_double x y with
      | Some Eq | Some Gt => true
      | _ => false
      end
  | Float x, Int y =>
      match Zcompare_double y x with
      | Some Eq | Some Lt => true
      | _ => false
      end
  end.

Definition evaluator : Type := double -> result double.

Record world : Type := mkWorld {
  stdout : list string;            (* lines printed, oldest first *)
  calls : list (callee * double)   (* evaluator calls made, oldest first *)
}.

Definition stmt (R A : Type) : Type := world -> signal R A * world.

Definition ret {R A : Type} (v : A) : stmt R A :=
  fun w => (Normal v, w).

Definition bind {R A B : Type} (m : stmt R A) (k : A -> stmt R B) : stmt R B :=
  fun w =>
    match m w with
    | (Normal v, w') => k v w'
    | (Returned r, w') => (Returned r, w')
    | (Raised e, w') => (Raised e, w')
    end.

Definition return_ {R A : Type} (r : R) : stmt R A :=
  fun w => (Returned r, w).

Definition raise {R A : Type} (e : exn) : stmt R A :=
  fun w => (Raised e, w).

Definition try_except {R A : Type} (m : stmt R A) (handler : exn -> stmt R A)
  : stmt R A :=
  fun w =>
    match m w with
    | (Raised e, w') => handler e w'
    | out => out
    end.

Definition when {R : Type} (c : bool) (m : stmt R unit) : stmt R unit :=
  if c then m else ret tt.

Definition print {R : Type} (line : string) : stmt R unit :=
  fun w => (Normal tt, {| stdout := stdout w ++ [line]; calls := calls w |}).

Definition call {R : Type} (who : callee) (f : evaluator) (x : double)
  : stmt R double :=
  fun w =>
    (match f x with Ok y => Normal y | Raises e => Raised e end,
     {| stdout := stdout w; calls := calls w ++ [(who, x)] |}).

Declare Scope double_scope.
Delimit Scope double_scope with double.
Notation "x <- m ;; k" := (bind m (fun x => k))
  (at level 100, m at next level, right associativity) : double_scope.
Notation "' p <- m ;; k" := (bind m (fun x => let p := x in k))
  (at level 100, p pattern, m at next level, right associativity)
  : double_scope.
Notation "m ;; k" := (bind m (fun _ => k))
  (at level 100, right associativity) : double_scope.
Local Open Scope double_scope.

Fixpoint for_ {R S : Type} (xs : list Z) (body : Z -> S -> stmt R S) (s : S)
  : stmt R S :=
  match xs with
  | [] => ret s
  | x :: xs' => bind (body x s) (for_ xs' body)
  end.

Definition def {R : Type} (body : stmt R Empty_set)
  : world -> result R * world :=
  fun w =>
    match body w with
    | (Normal v, w') => match v with end
    | (Returned r, w') => (Ok r, w')
    | (Raised e, w') => (Raises e, w')
    end.

Definition OverflowError : exn :=
  Exc "OverflowError" "int too large to convert to float".

(** [float(a)] *)
Definition float {R : Type} (a : number) : stmt R double :=
  match as_double a with
  | Some x => ret x
  | None => raise OverflowError
  end.

Record bisection_locals : Type := mkBisection {
  f_a : double;
  f_b : double;
  iter_count : Z;
  current_a : double;
  current_b : double
}.

(** Lines 113-133: one pass of the loop body. *)
Definition bisection_body (f : evaluator) (epsilon : double)
    (i : Z) (st : bisection_locals)
  : stmt (option (double * Z)) bisection_locals :=
  let iter_count := i in
  let c := (current_a st + current_b st) / 2 in
  f_c <- try_except (call Fn_f f c) (fun _ => return_ None) ;;
  when (abs f_c <? epsilon) (return_ (Some (c, iter_count))) ;;
  if f_a st * f_c <? 0 then
    ret (mkBisection (f_a st) (f_b st) iter_count (current_a st) c)
  else if f_c * f_b st <? 0 then
    ret (mkBisection (f_a st) (f_b st) iter_count c (current_b st))
  else
    return_ (Some (c, iter_count)).

(** Lines 83-137.  Both conversions of line 95 and line 96 are inside the
    [try]; those of lines 104 to 110 are not. *)
Definition bisection (a b : number) (f : evaluator) (epsilon : double)
    (max_iter : Z) : world -> result (option (double * Z)) * world :=
  def (
    when (ge a b) (return_ None) ;;
    ' (f_a, f_b) <-
      try_except
        (x_a <- float a ;;
         f_a <- call Fn_f f x_a ;;
         x_b <- float b ;;
         f_b <- call Fn_f f x_b ;;
         ret (f_a, f_b))
        (fun _ => return_ None) ;;
    when (0 <? f_a * f_b) (return_ None) ;;
    when (abs f_a <? epsilon) (x_a <- float a ;; return_ (Some (x_a, 0%Z))) ;;
    when (abs f_b <? epsilon) (x_b <- float b ;; return_ (Some (x_b, 0%Z))) ;;
    st <- (current_a <- float a ;;
           current_b <- float b ;;
           ret (mkBisection f_a f_b 0 current_a current_b)) ;;
    st <- for_ (range 1 (max_iter + 1)) (bisection_body f epsilon) st ;;
    let c_final := (current_a st + current_b st) / 2 in
    print (bisection_notice max_iter) ;;
    return_ (Some (c_final, max_iter))).

(** Statements only ever append to the world. *)
Definition extend (w : world) (out : list string) (cs : list (callee * double))
  : world :=
  {| stdout := stdout w ++ out; calls := calls w ++ cs |}.

(** Every call of the trace gave a value. *)
Definition clean (f : evaluator) (cs : list (callee * double)) : Prop :=
  Forall (fun p => exists y, f (snd p) = Ok y) cs.

(** The world before anything was printed or called. *)
Definition w0 : world := mkWorld [] [].

(** [x * x - 0.5] *)
Definition parabola : evaluator := fun x => Ok (x * x - 0.5).


(** [-1] left of [1.25 * 2^1023] and [1] from there on. *)
Definition far_step : evaluator :=
  fun x => Ok (if x <? 0x1.4p1023 then -1 else 1).

End Double.

(** * Lemmas *)

Lemma Qlt_bool_iff (x y : Q) : (x <? y) = true <-> x < y.
Proof.
  unfold Qlt_bool. rewrite negb_true_iff.
  split; intro H.
  - apply Qnot_le_lt. intro L. apply Qle_bool_iff in L. congruence.
  - destruct (Qle_bool y x) eqn:E; [|reflexivity].
    apply Qle_bool_iff in E. exfalso. apply (Qlt_not_le _ _ H E).
Qed.

Lemma Qlt_bool_false_iff (x y : Q) : (x <? y) = false <-> y <= x.
Proof.
  unfold Qlt_bool. rewrite negb_false_iff. apply Qle_bool_iff.
Qed.

Lemma extend_nil (w : world) : extend w [] [] = w.
Proof. destruct w; unfold extend; simpl. now rewrite !app_nil_r. Qed.

Lemma extend_extend (w : world) o1 c1 o2 c2 :
  extend (extend w o1 c1) o2 c2 = extend w (o1 ++ o2) (c1 ++ c2).
Proof. unfold extend; simpl. now rewrite !app_assoc. Qed.

(** Equality of two worlds written with [extend] and [++]. *)
Ltac world_eq :=
  unfold extend; simpl; rewrite ?app_nil_r, <- ?app_assoc; reflexivity.

(** ** Rules for [sat] *)

Section Rules.
Context {R : Type}.
Variable Phi : list (callee * Q) -> exit R -> Prop.
Hypothesis Phi_seq : sequential Phi.

Lemma sat_ret {A : Type} (v : A) : sat Phi (ret v).
Proof.
  exists (Normal v), [], []. split.
  - intro w. unfold ret. now rewrite extend_nil.
  - apply Phi_seq.
Qed.

Lemma sat_print (line : string) : sat Phi (print line).
Proof.
  exists (Normal tt), [line], []. split.
  - intro w. unfold print, extend. now rewrite app_nil_r.
  - apply Phi_seq.
Qed.

Lemma sat_return {A : Type} (r : R) :
  Phi [] (EReturned r) -> sat Phi (@return_ R A r).
Proof.
  intro H. exists (Returned r), [], []. split; [|exact H].
  intro w. unfold return_. now rewrite extend_nil.
Qed.

Lemma sat_raise {A : Type} (e : exn) :
  Phi [] (ERaised e) -> sat Phi (@raise R A e).
Proof.
  intro H. exists (Raised e), [], []. split; [|exact H].
  intro w. unfold raise. now rewrite extend_nil.
Qed.

Lemma sat_call (who : callee) (f : evaluator) (x : Q) :
  (forall y, f x = Ok y -> Phi [(who, x)] ENormal) ->
  (forall e, f x = Raises e -> Phi [(who, x)] (ERaised e)) ->
  sat Phi (call who f x).
Proof.
  intros Hn Hr. unfold sat, emits, call.
  destruct (f x) as [y|e].
  - exists (Normal y), [], [(who, x)]. split; [|now apply (Hn y)].
    intro w. unfold extend. now rewrite app_nil_r.
  - exists (Raised e), [], [(who, x)]. split; [|now apply Hr].
    intro w. unfold extend. now rewrite app_nil_r.
Qed.

Lemma sat_bind {A B : Type} (m : stmt R A) (k : A -> stmt R B) :
  sat Phi m -> (forall v, sat Phi (k v)) -> sat Phi (bind m k).
Proof.
  intros (s1 & o1 & c1 & E1 & P1) Hk. destruct s1 as [v|r|e].
  - destruct (Hk v) as (s2 & o2 & c2 & E2 & P2).
    exists s2, (o1 ++ o2), (c1 ++ c2). split.
    + intro w. unfold bind. rewrite E1, E2. now rewrite extend_extend.
    + now apply Phi_seq.
  - exists (Returned r), o1, c1. split; [|exact P1].
    intro w. unfold bind. now rewrite E1.
  - exists (Raised e), o1, c1. split; [|exact P1].
    intro w. unfold bind. now rewrite E1.
Qed.

Lemma sat_when (c : bool) (m : stmt R unit) :
  sat Phi m -> sat Phi (when c m).
Proof. intro H. destruct c; simpl; [exact H | apply sat_ret]. Qed.

Lemma sat_for {S : Type} (body : Z -> S -> stmt R S) (xs : list Z) :
  (forall i s, sat Phi (body i s)) -> forall s, sat Phi (for_ xs body s).
Proof.
  intro Hb. induction xs as [|x xs IH]; intro s; simpl.
  - apply sat_ret.
  - apply sat_bind; [apply Hb | exact IH].
Qed.

Lemma sat_def_intro (body : stmt R Empty_set) :
  sat Phi body -> sat_def Phi (def body).
Proof.
  intros (s & o & c & E & P). destruct s as [[]|r|e].
  - exists (Ok r), o, c. split; [|exact P].
    intro w. unfold def. now rewrite E.
  - exists (Raises e), o, c. split; [|exact P].
    intro w. unfold def. now rewrite E.
Qed.
End Rules.

(** [try: m  except Exception: return r0]: the body is reasoned about with
    its own property [Psi]. *)
Lemma sat_try_return {R A : Type}
    (Psi Phi : list (callee * Q) -> exit R -> Prop)
    (m : stmt R A) (r0 : R) :
  sat Psi m ->
  (forall cs, Psi cs ENormal -> Phi cs ENormal) ->
  (forall cs r, Psi cs (EReturned r) -> Phi cs (EReturned r)) ->
  (forall cs e, Psi cs (ERaised e) -> Phi cs (EReturned r0)) ->
  sat Phi (try_except m (fun _ => return_ r0)).
Proof.
  intros (s1 & o1 & c1 & E1 & P1) Hn Hr Hx. destruct s1 as [v|r|e].
  - exists (Normal v), o1, c1. split; [|now apply Hn].
    intro w. unfold try_except. now rewrite E1.
  - exists (Returned r), o1, c1. split; [|now apply Hr].
    intro w. unfold try_except. now rewrite E1.
  - exists (Returned r0), o1, c1. split; [|now apply (Hx c1 e)].
    intro w. unfold try_except, return_. now rewrite E1.
Qed.

Lemma sat_weaken {R A : Type}
    (Psi Phi : list (callee * Q) -> exit R -> Prop) (m : stmt R A) :
  (forall cs x, Psi cs x -> Phi cs x) -> sat Psi m -> sat Phi m.
Proof.
  intros H (s & o & c & E & P). exists s, o, c. split; [exact E | now apply H].
Qed.

(** Walks down a statement with the rules above; [leaf] settles what is
    asked of a [return], a [raise], a call or a [try]. *)
Ltac sat_steps Hseq leaf :=
  repeat (intros;
    match goal with
    | |- sat_def _ (def _) => apply sat_def_intro
    | |- sat _ (bind _ _) => apply (sat_bind _ Hseq)
    | |- sat _ (when _ _) => apply (sat_when _ Hseq)
    | |- sat _ (ret _) => apply (sat_ret _ Hseq)
    | |- sat _ (print _) => apply (sat_print _ Hseq)
    | |- sat _ (for_ _ _ _) => apply (sat_for _ Hseq)
    | |- sat _ (return_ _) => apply sat_return; leaf
    | |- sat _ (raise _) => apply sat_raise; leaf
    | |- sat _ (call _ _ _) => apply sat_call; intros; leaf
    | |- sat _ (read_local _ ?v) => destruct v; unfold read_local
    | |- sat _ (if ?c then _ else _) => destruct c
    | |- sat _ (let (_, _) := ?p in _) => destruct p
    | |- sat _ (try_except _ _) => leaf
    end).

(** ** The trace properties are sequential *)

Lemma clean_app ev c1 c2 : clean ev c1 -> clean ev c2 -> clean ev (c1 ++ c2).
Proof. unfold clean. intros H1 H2. apply Forall_app. now split. Qed.

Lemma faulted_app ev c1 c2 e :
  clean ev c1 -> faulted ev c2 e -> faulted ev (c1 ++ c2) e.
Proof.
  intros H1 (cs0 & who & x & -> & H0 & Hx).
  exists (c1 ++ cs0), who, x. split; [now rewrite app_assoc|].
  split; [now apply clean_app | exact Hx].
Qed.

Lemma clean_faulted ev cs e who x :
  faulted ev cs e -> In (who, x) cs -> forall e', ev who x = Raises e' -> e' = e.
Proof.
  intros (cs0 & who0 & x0 & -> & H0 & Hx) Hin e' He'.
  apply in_app_or in Hin. destruct Hin as [Hin|[Heq|[]]].
  - unfold clean in H0. rewrite Forall_forall in H0.
    destruct (H0 _ Hin) as [y Hy]. simpl in Hy. congruence.
  - injection Heq as -> ->. congruence.
Qed.

Lemma clean_no_fault ev cs who x e :
  clean ev cs -> In (who, x) cs -> ev who x = Raises e -> False.
Proof.
  unfold clean. rewrite Forall_forall. intros H Hin He.
  destruct (H _ Hin) as [y Hy]. simpl in Hy. congruence.
Qed.

Lemma propagating_sequential {R : Type} ev : sequential (@propagating R ev).
Proof.
  split.
  - left. constructor.
  - intros c1 c2 x [H1|(e & _ & H)] H2; [|discriminate].
    destruct H2 as [H2|(e & H2 & ->)].
    + left. now apply clean_app.
    + right. exists e. split; [now apply faulted_app | reflexivity].
Qed.

Lemma catching_sequential {A : Type} ev : sequential (@catching A ev).
Proof.
  split.
  - split; [discriminate | left; constructor].
  - intros c1 c2 x [_ [H1|(e & _ & H)]] [Hx H2]; [|discriminate].
    split; [exact Hx|].
    destruct H2 as [H2|(e & H2 & ->)].
    + left. now apply clean_app.
    + right. exists e. split; [now apply faulted_app | reflexivity].
Qed.

Lemma flat_tangent_sequential {A : Type} df : sequential (@flat_tangent A df).
Proof.
  split.
  - split; [intros p y [] | discriminate].
  - intros c1 c2 x [H1 _] [H2 H2']. split.
    + intros p y Hin Hp Hy. apply in_app_or in Hin. destruct Hin as [Hin|Hin].
      * specialize (H1 p y Hin Hp Hy). discriminate.
      * now apply (H2 p y).
    + intro Hx. destruct (H2' Hx) as (p & y & Hin & Hp & Hy).
      exists p, y. split; [apply in_or_app; now right | now split].
Qed.

(** ** The solvers and the trace properties *)

Lemma propagating_nil {R : Type} ev (x : exit R) : propagating ev [] x.
Proof. left. constructor. Qed.

Lemma propagating_value {R : Type} ev who x y :
  ev who x = Ok y -> @propagating R ev [(who, x)] ENormal.
Proof. intro H. left. constructor; [now exists y | constructor]. Qed.

Lemma propagating_fault {R : Type} ev who x e :
  ev who x = Raises e -> @propagating R ev [(who, x)] (ERaised e).
Proof.
  intro H. right. exists e. split; [|reflexivity].
  exists [], who, x. split; [reflexivity|]. split; [constructor | exact H].
Qed.

Ltac propagating_leaf :=
  idtac;
  first [ apply propagating_nil
        | eapply propagating_value; simpl; eassumption
        | eapply propagating_fault; simpl; eassumption ].

Lemma catching_of_propagating {A : Type} ev cs (x : exit (option A)) :
  (forall e, x <> ERaised e) -> propagating ev cs x -> catching ev cs x.
Proof.
  intros Hx [H|(e & _ & ->)]; [|now elim (Hx e)].
  split; [exact Hx | now left].
Qed.

Lemma catching_handler {A : Type} ev cs e :
  @propagating (option A) ev cs (ERaised e) ->
  @catching A ev cs (EReturned None).
Proof.
  intro H. split; [discriminate|].
  destruct H as [H|(e' & H & _)]; [now left|].
  right. now exists e'.
Qed.

Ltac catching_leaf :=
  idtac;
  match goal with
  | |- catching _ [] (EReturned _) =>
      split; [discriminate | left; constructor]
  | |- sat (catching ?ev) (try_except _ _) =>
      apply (sat_try_return (propagating ev));
      [ sat_steps (@propagating_sequential (option (Q * Z)) ev)
                  propagating_leaf
      | intros ? ?; now apply catching_of_propagating
      | intros ? ? ?; now apply catching_of_propagating
      | intros ? ?; apply catching_handler ]
  end.

Lemma bisection_body_catching f df ddf epsilon i st :
  sat (catching (roles f df ddf)) (bisection_body f epsilon i st).
Proof.
  unfold bisection_body.
  sat_steps (@catching_sequential (Q * Z) (roles f df ddf)) catching_leaf.
Qed.

Lemma bisection_catching a b f df ddf epsilon max_iter :
  sat_def (catching (roles f df ddf)) (bisection a b f epsilon max_iter).
Proof.
  unfold bisection.
  sat_steps (@catching_sequential (Q * Z) (roles f df ddf)) catching_leaf.
  apply bisection_body_catching.
Qed.

Lemma secant_propagating a b f df ddf epsilon max_iters :
  sat_def (propagating (roles f df ddf)) (secant a b f epsilon max_iters).
Proof.
  unfold secant.
  sat_steps (@propagating_sequential (option (Q * Z)) (roles f df ddf))
            propagating_leaf.
  unfold secant_body.
  sat_steps (@propagating_sequential (option (Q * Z)) (roles f df ddf))
            propagating_leaf.
Qed.

Lemma newton_propagating f df ddf a b epsilon max_iter :
  sat_def (propagating (roles f df ddf)) (newton f df ddf a b epsilon max_iter).
Proof.
  unfold newton, newton_start, newton_iterate.
  sat_steps (@propagating_sequential (option (Q * Z)) (roles f df ddf))
            propagating_leaf.
  unfold newton_body.
  sat_steps (@propagating_sequential (option (Q * Z)) (roles f df ddf))
            propagating_leaf.
Qed.

(** Calls of [df] and the return of [None]. *)

Lemma without_df_sequential {A : Type} : sequential (@without_df A).
Proof.
  split.
  - split; [intros p [] | discriminate].
  - intros c1 c2 x [H1 _] [H2 Hx]. split; [|exact Hx].
    intros p Hin. apply in_app_or in Hin. destruct Hin as [Hin|Hin].
    + now apply (H1 p).
    + now apply (H2 p).
Qed.

Ltac without_df_leaf :=
  idtac;
  match goal with
  | |- without_df [] _ => split; [intros ? [] | discriminate]
  | |- without_df [_] _ =>
      split; [intros ? [?|[]]; discriminate | discriminate]
  end.

Lemma newton_start_without_df f ddf a b :
  sat (@without_df (Q * Z)) (newton_start f ddf a b).
Proof.
  unfold newton_start.
  sat_steps (@without_df_sequential (Q * Z)) without_df_leaf.
Qed.

Lemma flat_tangent_of_without_df {A : Type} df cs (x : exit (option A)) :
  without_df cs x -> flat_tangent df cs x.
Proof.
  intros [H Hx]. split.
  - intros p y Hin. now elim (H p).
  - intro E. now elim Hx.
Qed.

Lemma newton_body_flat_tangent f df epsilon i st :
  sat (flat_tangent df) (newton_body f df epsilon i st).
Proof.
  unfold newton_body.
  set (x := x_curr st). set (n := (iteration st + 1)%Z).
  destruct (df x) as [d|e] eqn:Ed.
  - destruct (d ==? 0) eqn:Ez.
    + exists (Returned None), [], [(Fn_df, x)]. split.
      * intro w. unfold bind, call. rewrite Ed. simpl. rewrite Ez. simpl.
        unfold return_, extend. simpl. now rewrite app_nil_r.
      * split; [reflexivity|]. intros _. exists x, d.
        split; [now left|]. split; [exact Ed | now apply Qeq_bool_eq].
    + assert (Hrest : sat (@without_df (Q * Z))
        (f_at_x <- call Fn_f f x ;;
         converged <-
           (if Qabs (x - f_at_x / d - x) <? epsilon then ret true
            else f_at_new <- call Fn_f f (x - f_at_x / d) ;;
                 ret (Qabs f_at_new <? epsilon)) ;;
         when converged (return_ (Some (x - f_at_x / d, n))) ;;
         ret (mkNewton (x - f_at_x / d) n))).
      { sat_steps (@without_df_sequential (Q * Z)) without_df_leaf. }
      destruct Hrest as (s & o & c & E & [Hc Hs]).
      exists s, o, ((Fn_df, x) :: c). split.
      * intro w. unfold bind at 1. unfold call at 1. rewrite Ed.
        unfold bind at 1. simpl. rewrite Ez. simpl. rewrite E.
        unfold extend. simpl. now rewrite <- app_assoc.
      * split.
        -- intros p y [Hin|Hin] Hp Hy.
           ++ injection Hin as <-. rewrite Ed in Hp. injection Hp as <-.
              apply Qeq_bool_neq in Ez. now elim Ez.
           ++ now elim (Hc p).
        -- intro Hn. now elim Hs.
  - exists (Raised e), [], [(Fn_df, x)]. split.
    + intro w. unfold bind, call. rewrite Ed. unfold extend. simpl.
      now rewrite app_nil_r.
    + split; [|discriminate].
      intros p y [Hin|[]] Hp. injection Hin as <-. congruence.
Qed.

Lemma newton_flat_tangent f df ddf a b epsilon max_iter :
  sat_def (flat_tangent df) (newton f df ddf a b epsilon max_iter).
Proof.
  unfold newton, newton_iterate.
  apply sat_def_intro. apply (sat_bind _ (flat_tangent_sequential df)).
  - apply (sat_weaken without_df); [apply flat_tangent_of_without_df|].
    apply newton_start_without_df.
  - intro x0. apply (sat_bind _ (flat_tangent_sequential df)).
    + apply (sat_for _ (flat_tangent_sequential df)).
      intros. apply newton_body_flat_tangent.
    + intro st. apply sat_return. split; [|discriminate].
      intros p y [].
Qed.

(** * Evaluator exceptions *)

(** C3.  Whatever the evaluator does, [bisection] raises nothing, and when a
    point it evaluated is one where the evaluator raises, it returns [None];
    [secant] and [newton] raise the very exception of the evaluator when a
    point they evaluated is one where an evaluator raises.  The evaluated
    points are the calls [cs] the solver adds to the world. *)
Theorem evaluator_exception_policy
    (f df ddf : evaluator) (a b epsilon : Q) (max_iter : Z) :
  (exists r out cs,
      (forall w, bisection a b f epsilon max_iter w = (r, extend w out cs)) /\
      (forall e, r <> Raises e) /\
      (forall x e, In (Fn_f, x) cs -> f x = Raises e -> r = Ok None)) /\
  (exists r out cs,
      (forall w, secant a b f epsilon max_iter w = (r, extend w out cs)) /\
      (forall x e, In (Fn_f, x) cs -> f x = Raises e -> r = Raises e)) /\
  (exists r out cs,
      (forall w, newton f df ddf a b epsilon max_iter w
                 = (r, extend w out cs)) /\
      (forall who x e, In (who, x) cs -> roles f df ddf who x = Raises e ->
                       r = Raises e)).
Proof.
  split; [|split].
  - destruct (bisection_catching a b f df ddf epsilon max_iter)
      as (r & out & cs & E & Hr & Hc).
    exists r, out, cs. split; [exact E|]. split.
    + intros e ->. now apply (Hr e).
    + intros x e Hin He. destruct Hc as [Hc|(e' & Hf & Hx)].
      * now elim (clean_no_fault _ _ _ _ _ Hc Hin He).
      * destruct r; simpl in Hx; congruence.
  - destruct (secant_propagating a b f df ddf epsilon max_iter)
      as (r & out & cs & E & Hc).
    exists r, out, cs. split; [exact E|].
    intros x e Hin He. destruct Hc as [Hc|(e' & Hf & Hx)].
    + now elim (clean_no_fault _ _ _ _ _ Hc Hin He).
    + rewrite (clean_faulted _ _ _ _ _ Hf Hin e He).
      destruct r; simpl in Hx; congruence.
  - destruct (newton_propagating f df ddf a b epsilon max_iter)
      as (r & out & cs & E & Hc).
    exists r, out, cs. split; [exact E|].
    intros who x e Hin He. destruct Hc as [Hc|(e' & Hf & Hx)].
    + now elim (clean_no_fault _ _ _ _ _ Hc Hin He).
    + rewrite (clean_faulted _ _ _ _ _ Hf Hin e He).
      destruct r; simpl in Hx; congruence.
Qed.

(** * Newton: the flat tangent *)

(** C5.  Whatever [max_iter] is, [newton] returns [None] when a call of
    [df] it made gave exactly zero, and it returns [None] in no other
    case. *)
Theorem newton_none_iff_flat_tangent
    (f df ddf : evaluator) (a b epsilon : Q) (max_iter : Z) :
  exists r out cs,
    (forall w, newton f df ddf a b epsilon max_iter w
               = (r, extend w out cs)) /\
    (forall p y, In (Fn_df, p) cs -> df p = Ok y -> y == 0 -> r = Ok None) /\
    (r = Ok None -> exists p y, In (Fn_df, p) cs /\ df p = Ok y /\ y == 0).
Proof.
  destruct (newton_flat_tangent f df ddf a b epsilon max_iter)
    as (r & out & cs & E & H1 & H2).
  exists r, out, cs. split; [exact E|]. split.
  - intros p y Hin Hp Hy. specialize (H1 p y Hin Hp Hy).
    destruct r; simpl in H1; congruence.
  - intros ->. now apply H2.
Qed.

(** * The difference quotient *)

(** C8.  With [h == 0] the call returns [None] and raises nothing, whatever
    [f] is (it is not called); otherwise it returns
    [(f(x+h) - f(x)) / h], from the values [f] gives at [x+h] and at [x]. *)
Theorem difference_quotient_spec (f : evaluator) (x h : Q) (w : world) :
  (h == 0 -> difference_quotient f x h w = (Ok None, w)) /\
  (~ h == 0 ->
   forall u v, f (x + h) = Ok u -> f x = Ok v ->
     difference_quotient f x h w
     = (Ok (Some ((u - v) / h)), extend w [] [(Fn_f, x + h); (Fn_f, x)])).
Proof.
  unfold difference_quotient, def, bind, when, call. split.
  - intro Hh. apply Qeq_bool_iff in Hh. rewrite Hh. reflexivity.
  - intros Hh u v Hu Hv.
    destruct (h ==? 0) eqn:E; [apply Qeq_bool_iff in E; now elim Hh|].
    simpl. rewrite Hu, Hv. unfold return_. world_eq.
Qed.

(** * Newton: the starting point *)

(** C7.  [newton] runs its iteration from [a] when [f(a) * ddf(a) > 0];
    otherwise from [b] when [f(b) * ddf(b) > 0]; otherwise from the midpoint
    [(a + b) / 2].  [f] and [ddf] are called at [b] only when [a] was not
    chosen. *)
Theorem newton_starting_point
    (f df ddf : evaluator) (a b epsilon : Q) (max_iter : Z) (w : world) :
  (forall u v, f a = Ok u -> ddf a = Ok v -> 0 < u * v ->
     newton f df ddf a b epsilon max_iter w
     = def (newton_iterate f df epsilon max_iter a)
           (extend w [] [(Fn_f, a); (Fn_ddf, a)])) /\
  (forall u v u' v',
     f a = Ok u -> ddf a = Ok v -> ~ 0 < u * v ->
     f b = Ok u' -> ddf b = Ok v' -> 0 < u' * v' ->
     newton f df ddf a b epsilon max_iter w
     = def (newton_iterate f df epsilon max_iter b)
           (extend w [] [(Fn_f, a); (Fn_ddf, a); (Fn_f, b); (Fn_ddf, b)])) /\
  (forall u v u' v',
     f a = Ok u -> ddf a = Ok v -> ~ 0 < u * v ->
     f b = Ok u' -> ddf b = Ok v' -> ~ 0 < u' * v' ->
     newton f df ddf a b epsilon max_iter w
     = def (newton_iterate f df epsilon max_iter ((a + b) / 2))
           (extend w [] [(Fn_f, a); (Fn_ddf, a); (Fn_f, b); (Fn_ddf, b)])).
Proof.
  assert (Hlt : forall x y, ~ x < y -> (x <? y) = false).
  { intros x y H. destruct (x <? y) eqn:E; [|reflexivity].
    apply Qlt_bool_iff in E. now elim H. }
  unfold newton, newton_start.
  split; [|split].
  - intros u v Hu Hv Hpos. apply Qlt_bool_iff in Hpos.
    unfold def, bind, call. rewrite Hu, Hv, Hpos.
    unfold ret. world_eq.
  - intros u v u' v' Hu Hv Hneg Hu' Hv' Hpos.
    apply Hlt in Hneg. apply Qlt_bool_iff in Hpos.
    unfold def, bind, call. rewrite Hu, Hv, Hneg, Hu', Hv', Hpos.
    unfold ret. world_eq.
  - intros u v u' v' Hu Hv Hneg Hu' Hv' Hneg'.
    apply Hlt in Hneg. apply Hlt in Hneg'.
    unfold def, bind, call. rewrite Hu, Hv, Hneg, Hu', Hv', Hneg'.
    unfold ret. world_eq.
Qed.

(** * Newton with no iteration *)

(** C9.  With [max_iter = 0], [newton] does not return [None], does not
    call [df], and returns the starting point it selected, unchanged,
    together with the count [0]. *)
Theorem newton_zero_budget (f df ddf : evaluator) (a b epsilon : Q) :
  (exists r out cs,
      (forall w, newton f df ddf a b epsilon 0 w = (r, extend w out cs)) /\
      r <> Ok None /\
      (forall p, ~ In (Fn_df, p) cs)) /\
  (forall w x_start w',
      newton_start (R := option (Q * Z)) f ddf a b w = (Normal x_start, w') ->
      newton f df ddf a b epsilon 0 w = (Ok (Some (x_start, 0%Z)), w')).
Proof.
  split.
  - destruct (newton_start_without_df f ddf a b)
      as (s & out & cs & E & Hc & Hs).
    destruct s as [x0|r|e].
    + exists (Ok (Some (x0, 0%Z))), out, cs. split; [|split].
      * intro w. unfold newton, newton_iterate, def, bind.
        rewrite E. reflexivity.
      * discriminate.
      * exact Hc.
    + exists (Ok r), out, cs. split; [|split].
      * intro w. unfold newton, def, bind. now rewrite E.
      * intro H. apply Hs. simpl. congruence.
      * exact Hc.
    + exists (Raises e), out, cs. split; [|split].
      * intro w. unfold newton, def, bind. now rewrite E.
      * discriminate.
      * exact Hc.
  - intros w x_start w' E.
    unfold newton, newton_iterate, def, bind. rewrite E. reflexivity.
Qed.

(** * Bisection *)

(** ** Signs *)

Lemma sign_cases (x : Q) :
  (x < 0 /\ (x ?= 0) = Lt) \/ (x == 0 /\ (x ?= 0) = Eq)
  \/ (0 < x /\ (x ?= 0) = Gt).
Proof.
  destruct (x ?= 0) eqn:E.
  - right; left. split; [now apply Qeq_alt | reflexivity].
  - left. split; [now apply Qlt_alt | reflexivity].
  - right; right. split; [now apply Qgt_alt | reflexivity].
Qed.

(** Splits on the signs of the given numbers and closes the arithmetic. *)
Ltac by_signs x y z :=
  destruct (sign_cases x) as [[? ?]|[[? ?]|[? ?]]];
  destruct (sign_cases y) as [[? ?]|[[? ?]|[? ?]]];
  destruct (sign_cases z) as [[? ?]|[[? ?]|[? ?]]];
  unfold same_sign in *;
  try congruence; try (exfalso; nra); try nra.

Lemma opposite_same_sign_r (fa fb y : Q) :
  fa * fb < 0 -> fa * y < 0 -> same_sign y fb.
Proof. intros H1 H2. by_signs fa fb y. Qed.

Lemma opposite_same_sign_l (fa fb y : Q) :
  fa * fb < 0 -> y * fb < 0 -> same_sign y fa.
Proof. intros H1 H2. by_signs fa fb y. Qed.

Lemma same_sign_opposite (fa fb x z : Q) :
  fa * fb < 0 -> same_sign x fa -> same_sign z fb -> x * z < 0.
Proof.
  intros H1 Hx Hz.
  destruct (sign_cases x) as [[? ?]|[[? ?]|[? ?]]];
  destruct (sign_cases z) as [[? ?]|[[? ?]|[? ?]]];
  by_signs fa fb x.
Qed.

Lemma Qabs_large_nonzero (y epsilon : Q) :
  0 < epsilon -> epsilon <= Qabs y -> ~ y == 0.
Proof.
  intros He Hy E. rewrite E in Hy. change (Qabs 0) with 0 in Hy. lra.
Qed.

Lemma one_half_brackets (fa fb y epsilon : Q) :
  fa * fb < 0 -> 0 < epsilon -> epsilon <= Qabs y ->
  ~ fa * y < 0 -> y * fb < 0.
Proof.
  intros H1 He Hy Hn.
  pose proof (Qabs_large_nonzero y epsilon He Hy) as Hy0.
  by_signs fa fb y.
Qed.

(** ** One pass of the loop *)

Lemma bisection_body_run f epsilon i st w :
  bisection_body f epsilon i st w =
  (let c := (current_a st + current_b st) / 2 in
   match f c with
   | Raises _ => Returned None
   | Ok f_c =>
       if Qabs f_c <? epsilon then Returned (Some (c, i))
       else if f_a st * f_c <? 0 then
         Normal (mkBisection (f_a st) (f_b st) i (current_a st) c)
       else if f_c * f_b st <? 0 then
         Normal (mkBisection (f_a st) (f_b st) i c (current_b st))
       else Returned (Some (c, i))
   end,
   extend w [] [(Fn_f, (current_a st + current_b st) / 2)]).
Proof.
  unfold bisection_body, bind, try_except, call, when. simpl.
  destruct (f _) as [y|e]; simpl; [|unfold return_; f_equal; world_eq].
  destruct (Qabs _ <? epsilon); simpl; [unfold return_; f_equal; world_eq|].
  destruct (f_a st * _ <? 0); simpl; [unfold ret; f_equal; world_eq|].
  destruct (_ * f_b st <? 0); simpl; [unfold ret | unfold return_];
    f_equal; world_eq.
Qed.

(** ** The invariant of the loop *)

(** A pass keeps the invariant when it goes on; it returns a pair only
    within the tolerance, and [None] only when the evaluator raised. *)
Lemma bisection_body_brackets f epsilon i st w s w' :
  0 < epsilon -> brackets f st ->
  bisection_body f epsilon i st w = (s, w') ->
  let c := (current_a st + current_b st) / 2 in
  w' = extend w [] [(Fn_f, c)] /\
  match s with
  | Normal st' =>
      brackets f st' /\ f_a st' = f_a st /\ f_b st' = f_b st
      /\ iter_count st' = i
  | Returned (Some (c', n)) =>
      c' = c /\ n = i /\ exists y, f c = Ok y /\ Qabs y < epsilon
  | Returned None => exists e, f c = Raises e
  | Raised _ => False
  end.
Proof.
  intros He (Hab & Ha & Hb). rewrite bisection_body_run.
  intros H c. injection H as <- <-. split; [reflexivity|]. fold c.
  destruct (f c) as [y|e] eqn:Ec; [|now exists e].
  assert (Ev : value_at f c = y) by (unfold value_at; now rewrite Ec).
  destruct (Qabs y <? epsilon) eqn:E1.
  { repeat split. exists y. split; [reflexivity | now apply Qlt_bool_iff]. }
  apply Qlt_bool_false_iff in E1.
  destruct (f_a st * y <? 0) eqn:E2.
  { apply Qlt_bool_iff in E2. unfold brackets. simpl. rewrite Ev.
    repeat split; try assumption.
    now apply (opposite_same_sign_r (f_a st)). }
  destruct (y * f_b st <? 0) eqn:E3.
  { apply Qlt_bool_iff in E3. unfold brackets. simpl. rewrite Ev.
    repeat split; try assumption.
    now apply (opposite_same_sign_l (f_a st) (f_b st)). }
  exfalso.
  apply Qlt_bool_false_iff in E2. apply Qlt_bool_false_iff in E3.
  assert (H : y * f_b st < 0).
  { apply (one_half_brackets (f_a st) (f_b st) y epsilon); try assumption.
    lra. }
  lra.
Qed.

Lemma bisection_loop_brackets f epsilon xs :
  0 < epsilon ->
  forall st w s w', brackets f st ->
  for_ xs (bisection_body f epsilon) st w = (s, w') ->
  exists cs,
    w' = extend w [] cs /\
    match s with
    | Normal st' => brackets f st' /\ f_a st' = f_a st /\ f_b st' = f_b st
    | Returned (Some (c, n)) => exists y, f c = Ok y /\ Qabs y < epsilon
    | Returned None => exists x e, In (Fn_f, x) cs /\ f x = Raises e
    | Raised _ => False
    end.
Proof.
  intro He. induction xs as [|i xs IH]; intros st w s w' Hst; simpl.
  - unfold ret. intro H. injection H as <- <-. exists [].
    split; [now rewrite extend_nil|]. split; [exact Hst | split; reflexivity].
  - unfold bind.
    destruct (bisection_body f epsilon i st w) as [s1 w1] eqn:E1.
    destruct (bisection_body_brackets _ _ _ _ _ _ _ He Hst E1) as [-> Hb].
    destruct s1 as [st1|[[c n]|]|e].
    + destruct Hb as (H1 & Ea & Eb & _). intro H.
      destruct (IH _ _ _ _ H1 H) as (cs & -> & Hs).
      exists ((Fn_f, (current_a st + current_b st) / 2) :: cs).
      split; [world_eq|].
      destruct s as [st2|[[c n]|]|e]; try assumption.
      * destruct Hs as (H2 & Ea2 & Eb2). repeat split; try apply H2; congruence.
      * destruct Hs as (x & e & Hin & Hx). exists x, e.
        split; [now right | exact Hx].
    + intro H. injection H as <- <-. eexists. split; [reflexivity|].
      destruct Hb as (-> & _ & Hy). exact Hy.
    + intro H. injection H as <- <-. eexists. split; [reflexivity|].
      destruct Hb as [e Hb]. eexists _, e. split; [now left | exact Hb].
    + contradiction.
Qed.

(** C6.  In exact arithmetic with [epsilon > 0] and [f(a) * f(b) < 0], in
    every state the loop of [bisection] reaches the function has at
    [current_a] the sign of the original [f(a)] and at [current_b] the sign
    of the original [f(b)], so [f(current_a) * f(current_b) < 0]; the
    comparisons use the cached original values; and in the next pass, when
    neither the tolerance test nor the first sign test succeeds, the second
    sign test does: the final [else] is never taken. *)
Theorem bisection_sign_invariant
    (g : Q -> Q) (a b epsilon : Q) (k : Z)
    (w : world) (st : bisection_locals) (w' : world) :
  0 < epsilon ->
  g a * g b < 0 ->
  for_ (range 1 (k + 1)) (bisection_body (total g) epsilon)
       (mkBisection (g a) (g b) 0 (float a) (float b)) w = (Normal st, w') ->
  same_sign (g (current_a st)) (g a) /\
  same_sign (g (current_b st)) (g b) /\
  g (current_a st) * g (current_b st) < 0 /\
  f_a st = g a /\ f_b st = g b /\
  (let c := (current_a st + current_b st) / 2 in
   (Qabs (g c) <? epsilon) = false ->
   (f_a st * g c <? 0) = false ->
   (g c * f_b st <? 0) = true).
Proof.
  intros He Hab Hrun.
  assert (H0 : brackets (total g)
                 (mkBisection (g a) (g b) 0 (float a) (float b))).
  { unfold brackets, float, same_sign. simpl. auto. }
  destruct (bisection_loop_brackets _ _ _ He _ _ _ _ H0 Hrun)
    as (cs & _ & (Hb & Hsa & Hsb) & Ea & Eb).
  cbv [value_at total] in Hsa, Hsb. simpl in Ea, Eb.
  rewrite Ea, Eb in *.
  repeat split; try assumption.
  - now apply (same_sign_opposite (g a) (g b)).
  - intros c E1 E2.
    apply Qlt_bool_false_iff in E1. apply Qlt_bool_false_iff in E2.
    apply Qlt_bool_iff.
    apply (one_half_brackets (g a) (g b) (g c) epsilon); try assumption. lra.
Qed.

(** In exact arithmetic, for [a < b], [f(a) * f(b) < 0] and [epsilon > 0],
    [bisection] raises nothing, and it returns [None] only when the evaluator
    raised at a point it evaluated.  Otherwise it returns a pair [(c, n)],
    with [|f(c)| < epsilon], or with [n = max_iter] and [c] the midpoint of
    the interval the loop ended with, for every [max_iter]: the final [else]
    of the loop is dead.  This rests on the sign of an exact product; a
    product of doubles can underflow to zero, and on doubles the final
    [else] is taken, as shown below for [Double.bisection]. *)
Theorem bisection_returns_tolerance_or_budget
    (f : evaluator) (a b epsilon : Q) (max_iter : Z) (w : world) (u v : Q) :
  a < b ->
  f a = Ok u -> f b = Ok v -> u * v < 0 ->
  0 < epsilon ->
  exists r out cs,
    bisection a b f epsilon max_iter w = (Ok r, extend w out cs) /\
    match r with
    | Some (c, n) =>
        (exists y, f c = Ok y /\ Qabs y < epsilon) \/
        (n = max_iter /\
         exists st w1,
           for_ (range 1 (max_iter + 1)) (bisection_body f epsilon)
                (mkBisection u v 0 (float a) (float b))
                (extend w [] [(Fn_f, float a); (Fn_f, float b)])
           = (Normal st, w1) /\
           c = (current_a st + current_b st) / 2)
    | None => exists x e, In (Fn_f, x) cs /\ f x = Raises e
    end.
Proof.
  intros Hlt Hu Hv Huv He.
  assert (E1 : (a >=? b) = false).
  { destruct (a >=? b) eqn:E; [|reflexivity].
    apply Qle_bool_iff in E. lra. }
  assert (E2 : (u * v >? 0) = false).
  { apply Qlt_bool_false_iff. lra. }
  assert (Ew : {| stdout := stdout w;
                  calls := (calls w ++ [(Fn_f, a)]) ++ [(Fn_f, b)] |}
               = extend w [] [(Fn_f, a); (Fn_f, b)]) by world_eq.
  unfold bisection, def, float.
  unfold bind at 1. rewrite E1. simpl.
  unfold bind at 1. unfold try_except, bind, call, ret. rewrite Hu, Hv.
  rewrite E2. simpl. rewrite Ew.
  destruct (Qabs u <? epsilon) eqn:E3; simpl.
  { apply Qlt_bool_iff in E3. eexists _, _, _. split; [reflexivity|].
    left. now exists u. }
  destruct (Qabs v <? epsilon) eqn:E4; simpl.
  { apply Qlt_bool_iff in E4. eexists _, _, _. split; [reflexivity|].
    left. now exists v. }
  assert (H0 : brackets f (mkBisection u v 0 a b)).
  { unfold brackets, same_sign, value_at. simpl. rewrite Hu, Hv. auto. }
  destruct (for_ (range 1 (max_iter + 1)) (bisection_body f epsilon)
              (mkBisection u v 0 a b)
              (extend w [] [(Fn_f, a); (Fn_f, b)])) as [s w1] eqn:Erun.
  destruct (bisection_loop_brackets _ _ _ He _ _ _ _ H0 Erun)
    as (cs & -> & Hs).
  destruct s as [st|[[c n]|]|e].
  - unfold print, return_. simpl.
    exists (Some ((current_a st + current_b st) / 2, max_iter)),
      [bisection_notice max_iter], ([(Fn_f, a); (Fn_f, b)] ++ cs).
    split; [f_equal; world_eq|].
    right. split; [reflexivity|]. now eexists st, _.
  - exists (Some (c, n)), [], ([(Fn_f, a); (Fn_f, b)] ++ cs).
    split; [f_equal; world_eq|]. now left.
  - exists None, [], ([(Fn_f, a); (Fn_f, b)] ++ cs).
    split; [f_equal; world_eq|].
    destruct Hs as (x & e & Hin & Hx). exists x, e.
    split; [apply in_or_app; now right | exact Hx].
  - contradiction.
Qed.

(** C2 as the code has it.  A pass of the loop that goes on to the next one
    replaces exactly one endpoint by the midpoint [c]: the upper endpoint
    [current_b] when [f_a * f_c < 0], otherwise the lower endpoint
    [current_a] when [f_c * f_b < 0].  The cached [f_a] and [f_b] are never
    changed, in a pass or over the whole loop, so every sign comparison uses
    the original [f(a)] and [f(b)]. *)
Theorem bisection_loop_frame (f : evaluator) (epsilon : Q) :
  (forall i st w st' w',
      bisection_body f epsilon i st w = (Normal st', w') ->
      f_a st' = f_a st /\ f_b st' = f_b st /\
      exists f_c,
        f ((current_a st + current_b st) / 2) = Ok f_c /\
        ((f_a st * f_c < 0 /\
          current_b st' = (current_a st + current_b st) / 2 /\
          current_a st' = current_a st) \/
         (~ f_a st * f_c < 0 /\ f_c * f_b st < 0 /\
          current_a st' = (current_a st + current_b st) / 2 /\
          current_b st' = current_b st))) /\
  (forall xs st w st' w',
      for_ xs (bisection_body f epsilon) st w = (Normal st', w') ->
      f_a st' = f_a st /\ f_b st' = f_b st).
Proof.
  assert (Hstep : forall i st w st' w',
      bisection_body f epsilon i st w = (Normal st', w') ->
      f_a st' = f_a st /\ f_b st' = f_b st /\
      exists f_c,
        f ((current_a st + current_b st) / 2) = Ok f_c /\
        ((f_a st * f_c < 0 /\
          current_b st' = (current_a st + current_b st) / 2 /\
          current_a st' = current_a st) \/
         (~ f_a st * f_c < 0 /\ f_c * f_b st < 0 /\
          current_a st' = (current_a st + current_b st) / 2 /\
          current_b st' = current_b st))).
  { intros i st w st' w'.
    unfold bisection_body, bind, try_except, call, when.
    destruct (f ((current_a st + current_b st) / 2)) as [y|e]; simpl;
      [|discriminate].
    destruct (Qabs y <? epsilon); simpl; [discriminate|].
    destruct (f_a st * y <? 0) eqn:E1; simpl.
    { intro H. injection H as <- _. simpl. apply Qlt_bool_iff in E1.
      repeat split. exists y. split; [reflexivity|]. left. now repeat split. }
    destruct (y * f_b st <? 0) eqn:E2; simpl; [|discriminate].
    intro H. injection H as <- _. simpl.
    apply Qlt_bool_false_iff in E1. apply Qlt_bool_iff in E2.
    repeat split. exists y. split; [reflexivity|]. right.
    repeat split; try assumption. lra. }
  split; [exact Hstep|].
  induction xs as [|i xs IH]; intros st w st' w'; simpl.
  - unfold ret. intro H. injection H as <- _. now split.
  - unfold bind.
    destruct (bisection_body f epsilon i st w) as [[st1|r|e] w1] eqn:E;
      try discriminate.
    intro H. apply IH in H. apply Hstep in E.
    destruct H as [-> ->]. destruct E as (-> & -> & _). now split.
Qed.

(** C2 as it is written fails: the lower endpoint does change.  On
    [x * x - 1/2] over [0, 1] the first pass moves [current_a] to [1/2] and
    leaves [current_b] at [1]. *)
Lemma bisection_lower_endpoint_moves :
  exists st' w',
    for_ (range 1 2) (bisection_body sq (1 # 100))
         (mkBisection (parabola 0) (parabola 1) 0 (float 0) (float 1)) w0
    = (Normal st', w') /\
    current_a st' == 1 # 2 /\
    ~ current_a st' == float 0 /\
    current_b st' == float 1.
Proof.
  eexists _, _. split; [vm_compute; reflexivity|].
  simpl. repeat split; try reflexivity.
  intro H. vm_compute in H. discriminate.
Qed.

(** The frame over three passes on [x * x - 1/2] over [0, 1]. *)
Lemma bisection_loop_frame_witness :
  exists st' w',
    for_ (range 1 4) (bisection_body sq (1 # 100))
         (mkBisection (parabola 0) (parabola 1) 0 (float 0) (float 1)) w0
    = (Normal st', w') /\
    f_a st' = parabola 0 /\ f_b st' = parabola 1.
Proof.
  eexists _, _. split; [vm_compute; reflexivity|].
  apply (proj2 (bisection_loop_frame sq (1 # 100)) (range 1 4)
               (mkBisection (parabola 0) (parabola 1) 0 (float 0) (float 1))
               w0 _ (mkWorld [] [(Fn_f, 1 # 2); (Fn_f, 3 # 4); (Fn_f, 10 # 16)])).
  vm_compute. reflexivity.
Defined.

(** C6 after three passes on [x * x - 1/2] over [0, 1]. *)
Lemma bisection_sign_invariant_witness :
  exists st w',
    for_ (range 1 4) (bisection_body (total parabola) (1 # 100))
         (mkBisection (parabola 0) (parabola 1) 0 (float 0) (float 1)) w0
    = (Normal st, w') /\
    same_sign (parabola (current_a st)) (parabola 0) /\
    same_sign (parabola (current_b st)) (parabola 1) /\
    parabola (current_a st) * parabola (current_b st) < 0.
Proof.
  eexists _, _. split; [vm_compute; reflexivity|].
  pose proof (bisection_sign_invariant parabola 0 1 (1 # 100) 3 w0
                (mkBisection (-1 # 2) (1 # 2) 3 (10 # 16) (3 # 4))
                (mkWorld [] [(Fn_f, 1 # 2); (Fn_f, 3 # 4); (Fn_f, 10 # 16)])
                eq_refl eq_refl eq_refl) as (H1 & H2 & H3 & _).
  exact (conj H1 (conj H2 H3)).
Defined.

(** The same on [x * x - 1/2] over [0, 1] with a budget of three passes. *)
Lemma bisection_returns_tolerance_or_budget_witness :
  exists r out cs,
    bisection 0 1 sq (1 # 100) 3 w0 = (Ok r, extend w0 out cs) /\
    match r with
    | Some (c, n) =>
        (exists y, sq c = Ok y /\ Qabs y < 1 # 100) \/
        (n = 3%Z /\
         exists st w1,
           for_ (range 1 (3 + 1)) (bisection_body sq (1 # 100))
                (mkBisection (parabola 0) (parabola 1) 0 (float 0) (float 1))
                (extend w0 [] [(Fn_f, float 0); (Fn_f, float 1)])
           = (Normal st, w1) /\
           c = (current_a st + current_b st) / 2)
    | None => exists x e, In (Fn_f, x) cs /\ sq x = Raises e
    end.
Proof.
  apply (bisection_returns_tolerance_or_budget sq 0 1 (1 # 100) 3 w0
           (parabola 0) (parabola 1));
    reflexivity.
Defined.

(** * Secant: the exhausted loop *)

Lemma length_range (start stop : Z) :
  List.length (range start stop) = Z.to_nat (stop - start).
Proof. unfold range. now rewrite List.length_map, List.length_seq. Qed.

Lemma secant_body_assigns f epsilon x st w st' w' :
  secant_body f epsilon x st w = (Normal st', w') ->
  sec_i st' = (sec_i st + 1)%Z /\ exists c, sec_c st' = Some c.
Proof.
  unfold secant_body, bind, when, call.
  destruct (sec_fb st ==? sec_fa st); simpl; [discriminate|].
  destruct (f _) as [fc|e]; simpl; [|discriminate].
  destruct (_ || _); simpl; [discriminate|].
  destruct (sec_fa st * fc <? 0); unfold ret; intro H; injection H as <- _;
    simpl; eauto.
Qed.

Lemma secant_loop_counts f epsilon xs :
  forall st w st' w',
    for_ xs (secant_body f epsilon) st w = (Normal st', w') ->
    sec_i st' = (sec_i st + Z.of_nat (List.length xs))%Z /\
    ((xs <> [] \/ exists c, sec_c st = Some c) -> exists c, sec_c st' = Some c).
Proof.
  induction xs as [|x xs IH]; intros st w st' w'; simpl.
  - unfold ret. intro H. injection H as <- _. split; [lia|].
    intros [H|H]; [now elim H | exact H].
  - unfold bind.
    destruct (secant_body f epsilon x st w) as [[st1|r|e] w1] eqn:E;
      try discriminate.
    intro H. apply IH in H. apply secant_body_assigns in E.
    destruct H as [Hi Hc]. destruct E as [Ei Ec]. split; [lia|].
    intros _. apply Hc. now right.
Qed.

(** What does hold of C4: with [max_iters >= 1], when the loop runs out
    without returning, [secant] returns the last [c] it computed together
    with [max_iters]. *)
Lemma secant_exhausted_returns_last
    (f : evaluator) (a b epsilon : Q) (max_iters : Z) (w : world)
    (u v : Q) (st : secant_locals) (w' : world) :
  f a = Ok u -> f b = Ok v -> u * v < 0 ->
  (1 <= max_iters)%Z ->
  for_ (range 0 max_iters) (secant_body f epsilon)
       (mkSecant a b u v 0 None) (extend w [] [(Fn_f, a); (Fn_f, b)])
  = (Normal st, w') ->
  exists c, sec_c st = Some c /\
            secant a b f epsilon max_iters w = (Ok (Some (c, max_iters)), w').
Proof.
  intros Hu Hv Huv Hn Hrun.
  pose proof (secant_loop_counts _ _ _ _ _ _ _ Hrun) as [Hi Hc].
  rewrite length_range in Hi. simpl in Hi.
  destruct Hc as [c Hc].
  { left. intro E. apply (f_equal (@List.length Z)) in E.
    rewrite length_range in E. simpl in E. lia. }
  exists c. split; [exact Hc|].
  assert (E : (u * v >=? 0) = false).
  { destruct (u * v >=? 0) eqn:E; [|reflexivity].
    apply Qle_bool_iff in E. lra. }
  assert (Ew : {| stdout := stdout w;
                  calls := (calls w ++ [(Fn_f, a)]) ++ [(Fn_f, b)] |}
               = extend w [] [(Fn_f, a); (Fn_f, b)]) by world_eq.
  unfold secant, def.
  unfold bind at 1. unfold call at 1. rewrite Hu.
  unfold bind at 1. unfold call at 1. rewrite Hv.
  unfold bind at 1. rewrite E. simpl. rewrite Ew.
  unfold bind at 1. rewrite Hrun.
  unfold bind, read_local, ret, return_. rewrite Hc.
  rewrite Hi. do 4 f_equal. lia.
Qed.

(** C4 at [max_iters = 0].  After the sign test the loop makes no pass, [c]
    was never assigned, and [return c, i] raises [UnboundLocalError]: the
    call returns no pair. *)
Theorem secant_zero_budget_raises
    (f : evaluator) (a b epsilon : Q) (w : world) (u v : Q) :
  f a = Ok u -> f b = Ok v -> u * v < 0 ->
  secant a b f epsilon 0 w
  = (Raises (UnboundLocalError "c"), extend w [] [(Fn_f, a); (Fn_f, b)]).
Proof.
  intros Hu Hv Huv.
  assert (E : (u * v >=? 0) = false).
  { destruct (u * v >=? 0) eqn:E; [|reflexivity].
    apply Qle_bool_iff in E. lra. }
  unfold secant, def, bind, call. rewrite Hu, Hv, E. simpl.
  f_equal. world_eq.
Qed.

(** C4 on [x * x - 1/2] over [0, 1]. *)
Lemma secant_zero_budget_raises_witness :
  secant 0 1 sq (1 # 1000000) 0 w0
  = (Raises (UnboundLocalError "c"), extend w0 [] [(Fn_f, 0); (Fn_f, 1)]).
Proof.
  apply (secant_zero_budget_raises sq 0 1 (1 # 1000000) w0
           (parabola 0) (parabola 1)); reflexivity.
Defined.

(** * The theorems at concrete inputs *)

(** C3 on [on_the_left] over [0, 1]: every solver reaches a point strictly
    inside the interval, where the evaluator raises. *)
Lemma evaluator_exception_policy_witness :
  fst (bisection 0 1 on_the_left (1 # 100) 3 w0) = Ok None /\
  fst (secant 0 1 on_the_left (1 # 100) 3 w0) = Raises domain_error /\
  fst (newton on_the_left dsq ddsq 0 1 (1 # 100) 3 w0) = Raises domain_error.
Proof.
  destruct (evaluator_exception_policy on_the_left dsq ddsq 0 1 (1 # 100) 3)
    as ((r1 & o1 & c1 & E1 & _ & H1) & (r2 & o2 & c2 & E2 & H2)
        & (r3 & o3 & c3 & E3 & H3)).
  rewrite E1, E2, E3. simpl.
  pose proof (E1 w0) as K1. vm_compute in K1. injection K1 as _ _ K1.
  pose proof (E2 w0) as K2. vm_compute in K2. injection K2 as _ _ K2.
  pose proof (E3 w0) as K3. vm_compute in K3. injection K3 as _ _ K3.
  split; [|split].
  - apply (H1 (1 # 2) domain_error); [|reflexivity].
    rewrite <- K1. simpl. auto.
  - apply (H2 (4 # 8) domain_error); [|reflexivity].
    rewrite <- K2. simpl. auto.
  - apply (H3 Fn_f (3 # 4) domain_error); [|reflexivity].
    rewrite <- K3. simpl. auto 10.
Defined.

(** C5 on [x * x - 1/2] from the midpoint [0] of [-1/2, 1/2], where the
    derivative [2 * x] is zero. *)
Lemma newton_none_iff_flat_tangent_witness :
  fst (newton sq dsq ddsq (-1 # 2) (1 # 2) (1 # 100) 5 w0) = Ok None.
Proof.
  destruct (newton_none_iff_flat_tangent sq dsq ddsq (-1 # 2) (1 # 2)
              (1 # 100) 5) as (r & o & c & E & H1 & _).
  rewrite E. simpl.
  pose proof (E w0) as K. vm_compute in K. injection K as _ _ K.
  apply (H1 (0 # 8) (0 # 8)); [|reflexivity|reflexivity].
  rewrite <- K. simpl. auto 10.
Defined.

(** C8 on [x * x - 1/2] at [1] with step [1/10], and with step [0] on an
    evaluator that would raise at the point. *)
Lemma difference_quotient_spec_witness :
  difference_quotient sq 1 (1 # 10) w0
  = (Ok (Some ((parabola (1 + (1 # 10)) - parabola 1) / (1 # 10))),
     extend w0 [] [(Fn_f, 1 + (1 # 10)); (Fn_f, 1)]) /\
  difference_quotient on_the_left (1 # 2) 0 w0 = (Ok None, w0).
Proof.
  split.
  - apply (proj2 (difference_quotient_spec sq 1 (1 # 10) w0));
      [intro H; vm_compute in H; discriminate | reflexivity | reflexivity].
  - apply (proj1 (difference_quotient_spec on_the_left (1 # 2) 0 w0)).
    reflexivity.
Defined.

(** C7 on [x * x - 1/2] over [0, 1]: [f(0) * ddf(0) < 0] and
    [f(1) * ddf(1) > 0], so the iteration starts from [b = 1]. *)
Lemma newton_starting_point_witness :
  newton sq dsq ddsq 0 1 (1 # 100) 3 w0
  = def (newton_iterate sq dsq (1 # 100) 3 1)
        (extend w0 [] [(Fn_f, 0); (Fn_ddf, 0); (Fn_f, 1); (Fn_ddf, 1)]).
Proof.
  apply (proj1 (proj2 (newton_starting_point sq dsq ddsq 0 1 (1 # 100) 3 w0))
           (parabola 0) 2 (parabola 1) 2);
    try reflexivity.
  intro H. vm_compute in H. discriminate.
Defined.

(** C9 on [x * x - 1/2] over [0, 1]: the starting point is [1]. *)
Lemma newton_zero_budget_witness :
  newton sq dsq ddsq 0 1 (1 # 100) 0 w0
  = (Ok (Some (1, 0%Z)),
     mkWorld [] [(Fn_f, 0); (Fn_ddf, 0); (Fn_f, 1); (Fn_ddf, 1)]).
Proof.
  apply (proj2 (newton_zero_budget sq dsq ddsq 0 1 (1 # 100)) w0).
  vm_compute. reflexivity.
Defined.

(** * Further properties of the solvers *)

(** ** [range] *)

Lemma range_nil (start stop : Z) : (stop <= start)%Z -> range start stop = [].
Proof.
  intro H. unfold range.
  replace (Z.to_nat (stop - start)) with 0%nat by lia. reflexivity.
Qed.

Lemma range_cons (start stop : Z) :
  (start < stop)%Z -> range start stop = start :: range (start + 1) stop.
Proof.
  intro H. unfold range.
  replace (Z.to_nat (stop - start)) with (S (Z.to_nat (stop - (start + 1))))
    by lia.
  simpl. f_equal; [lia|].
  rewrite <- seq_shift, map_map. apply map_ext. intro k. lia.
Qed.

Lemma nth_error_range (start stop : Z) (k : nat) (n : Z) :
  nth_error (range start stop) k = Some n ->
  n = (start + Z.of_nat k)%Z /\ (n < stop)%Z.
Proof.
  unfold range. rewrite nth_error_map. intro H.
  destruct (nth_error (seq 0 (Z.to_nat (stop - start))) k) as [j|] eqn:E;
    [|discriminate].
  simpl in H. injection H as <-.
  rewrite nth_error_seq in E.
  destruct (Nat.ltb k (Z.to_nat (stop - start))) eqn:L; [|discriminate].
  apply Nat.ltb_lt in L. injection E as <-. split; lia.
Qed.

(** ** Bisection: the shape of the interval *)

Lemma two_power_succ (k : nat) :
  2 ^ Z.of_nat (S k) == 2 * 2 ^ Z.of_nat k.
Proof.
  replace (Z.of_nat (S k)) with (1 + Z.of_nat k)%Z by lia.
  rewrite Qpower_plus by discriminate. reflexivity.
Qed.

(** Whatever the evaluator does, the passes of the loop keep the current
    interval inside the one they started from and halve it; each pass makes
    one call; a pair is returned at the midpoint and with the index of the
    pass that returns it. *)
Lemma bisection_loop_geometry f epsilon xs :
  forall st w s w',
    current_a st < current_b st ->
    for_ xs (bisection_body f epsilon) st w = (s, w') ->
    exists cs,
      w' = extend w [] cs /\
      match s with
      | Normal st' =>
          List.length cs = List.length xs /\
          current_a st <= current_a st' /\
          current_a st' < current_b st' /\
          current_b st' <= current_b st /\
          (current_b st' - current_a st') * 2 ^ Z.of_nat (List.length xs)
          == current_b st - current_a st
      | Returned (Some (c, n)) =>
          (exists k, nth_error xs k = Some n /\ List.length cs = S k) /\
          current_a st < c /\ c < current_b st
      | Returned None =>
          (List.length cs <= List.length xs)%nat /\
          exists x e, In (Fn_f, x) cs /\ f x = Raises e
      | Raised _ => False
      end.
Proof.
  induction xs as [|i xs IH]; intros st w s w' Hlt; simpl.
  - unfold ret. intro H. injection H as <- <-. exists [].
    split; [now rewrite extend_nil|]. simpl.
    repeat split; try lra.
  - unfold bind. rewrite bisection_body_run. simpl.
    set (c := (current_a st + current_b st) / 2).
    assert (Hc : current_a st < c /\ c < current_b st).
    { unfold c. split.
      - apply Qlt_shift_div_l; [reflexivity | lra].
      - apply Qlt_shift_div_r; [reflexivity | lra]. }
    assert (Hw : (c - current_a st) * 2 == current_b st - current_a st
                 /\ (current_b st - c) * 2 == current_b st - current_a st).
    { unfold c. split; field. }
    destruct Hc as [Hc1 Hc2]. destruct Hw as [Hw1 Hw2].
    assert (Hstep : forall st1,
      current_a st <= current_a st1 -> current_a st1 < current_b st1 ->
      current_b st1 <= current_b st ->
      (current_b st1 - current_a st1) * 2 == current_b st - current_a st ->
      for_ xs (bisection_body f epsilon) st1 (extend w [] [(Fn_f, c)])
      = (s, w') ->
      exists cs,
        w' = extend w [] cs /\
        match s with
        | Normal st' =>
            List.length cs = S (List.length xs) /\
            current_a st <= current_a st' /\
            current_a st' < current_b st' /\
            current_b st' <= current_b st /\
            (current_b st' - current_a st') * 2 ^ Z.of_nat (S (List.length xs))
            == current_b st - current_a st
        | Returned (Some (c', n)) =>
            (exists k, nth_error (i :: xs) k = Some n
                       /\ List.length cs = S k) /\
            current_a st < c' /\ c' < current_b st
        | Returned None =>
            (List.length cs <= S (List.length xs))%nat /\
            exists x e, In (Fn_f, x) cs /\ f x = Raises e
        | Raised _ => False
        end).
    { intros st1 H1 H2 H3 H4 Hrun.
      destruct (IH _ _ _ _ H2 Hrun) as (cs & -> & Hs).
      exists ((Fn_f, c) :: cs). split; [world_eq|].
      destruct s as [st'|[[c' n]|]|e]; cbv beta iota; try assumption.
      - destruct Hs as (L & A & B & C & D). cbn [List.length].
        repeat split; try lra; [now rewrite L|].
        rewrite two_power_succ.
        transitivity
          (((current_b st' - current_a st') * 2 ^ Z.of_nat (List.length xs))
           * 2); [ring|].
        rewrite D. exact H4.
      - destruct Hs as ((k & Hk & L) & A & B).
        split; [|split; lra].
        exists (S k). split; [exact Hk | cbn [List.length]; now rewrite L].
      - cbn [List.length]. destruct Hs as (L & x & e & Hin & Hx).
        split; [lia|]. exists x, e. split; [now right | exact Hx]. }
    destruct (f c) as [y|e] eqn:Ec.
    + destruct (Qabs y <? epsilon).
      { intro H. injection H as <- <-. exists [(Fn_f, c)].
        split; [reflexivity|]. split; [|split; assumption].
        exists 0%nat. split; reflexivity. }
      destruct (f_a st * y <? 0).
      { apply Hstep; simpl; try lra. }
      destruct (y * f_b st <? 0).
      { apply Hstep; simpl; try lra. }
      intro H. injection H as <- <-. exists [(Fn_f, c)].
      split; [reflexivity|]. split; [|split; assumption].
      exists 0%nat. split; reflexivity.
    + intro H. injection H as <- <-. exists [(Fn_f, c)].
      split; [reflexivity|]. simpl. split; [lia|].
      exists c, e. split; [now left | exact Ec].
Qed.

(** ** Bisection: every way a call can end *)

(** The five ways a call of [bisection] ends, with the world each leaves. *)
Lemma bisection_inv a b f epsilon max_iter w r w' :
  bisection a b f epsilon max_iter w = (r, w') ->
  let loop u v :=
    for_ (range 1 (max_iter + 1)) (bisection_body f epsilon)
         (mkBisection u v 0 a b) (extend w [] [(Fn_f, a); (Fn_f, b)]) in
  (b <= a /\ r = Ok None /\ w' = w) \/
  (a < b /\ exists e, f a = Raises e /\ r = Ok None
                      /\ w' = extend w [] [(Fn_f, a)]) \/
  (a < b /\ exists u,
      f a = Ok u /\
      ((exists e, f b = Raises e /\ r = Ok None
                  /\ w' = extend w [] [(Fn_f, a); (Fn_f, b)]) \/
       exists v,
         f b = Ok v /\
         ((0 < u * v /\ r = Ok None
           /\ w' = extend w [] [(Fn_f, a); (Fn_f, b)]) \/
          (u * v <= 0 /\
           ((Qabs u < epsilon /\ r = Ok (Some (a, 0%Z))
             /\ w' = extend w [] [(Fn_f, a); (Fn_f, b)]) \/
            (epsilon <= Qabs u /\ Qabs v < epsilon /\ r = Ok (Some (b, 0%Z))
             /\ w' = extend w [] [(Fn_f, a); (Fn_f, b)]) \/
            (epsilon <= Qabs u /\ epsilon <= Qabs v /\
             ((exists r0, loop u v = (Returned r0, w') /\ r = Ok r0) \/
              (exists st w1,
                  loop u v = (Normal st, w1) /\
                  r = Ok (Some ((current_a st + current_b st) / 2, max_iter))
                  /\ w' = extend w1 [bisection_notice max_iter] [])))))))).
Proof.
  intros H loop. unfold bisection, def, float in H.
  unfold bind at 1 in H.
  destruct (a >=? b) eqn:E1; simpl in H.
  { left. apply Qle_bool_iff in E1. injection H as <- <-. auto. }
  right.
  assert (Hlt : a < b).
  { apply Qnot_le_lt. intro L. apply Qle_bool_iff in L. congruence. }
  unfold bind at 1 in H. unfold try_except, bind, call, ret in H.
  destruct (f a) as [u|e] eqn:Ea.
  2:{ left. split; [exact Hlt|]. exists e. unfold return_ in H.
      injection H as <- <-. repeat split. world_eq. }
  right. split; [exact Hlt|]. exists u. split; [reflexivity|].
  assert (Ew : {| stdout := stdout w;
                  calls := (calls w ++ [(Fn_f, a)]) ++ [(Fn_f, b)] |}
               = extend w [] [(Fn_f, a); (Fn_f, b)]) by world_eq.
  simpl in H. rewrite Ew in H.
  destruct (f b) as [v|e] eqn:Eb.
  2:{ left. exists e. unfold return_ in H. injection H as <- <-. auto. }
  right. exists v. split; [reflexivity|].
  destruct (u * v >? 0) eqn:E2; simpl in H.
  { left. apply Qlt_bool_iff in E2. injection H as <- <-. auto. }
  right. apply Qlt_bool_false_iff in E2. split; [exact E2|].
  destruct (Qabs u <? epsilon) eqn:E3; simpl in H.
  { left. apply Qlt_bool_iff in E3. injection H as <- <-. auto. }
  right. apply Qlt_bool_false_iff in E3.
  destruct (Qabs v <? epsilon) eqn:E4; simpl in H.
  { left. apply Qlt_bool_iff in E4. injection H as <- <-. auto. }
  right. apply Qlt_bool_false_iff in E4.
  split; [exact E3|]. split; [exact E4|].
  fold (loop u v) in H.
  destruct (loop u v) as [[st|r0|e] w1] eqn:El.
  - right. exists st, w1. unfold print, return_ in H. simpl in H.
    injection H as <- <-. split; [reflexivity|]. split; [reflexivity|].
    world_eq.
  - left. exists r0. injection H as <- <-. auto.
  - exfalso. unfold loop in El.
    destruct (bisection_loop_geometry f epsilon _
                (mkBisection u v 0 a b) _ _ _ Hlt El) as (cs & _ & []).
Qed.

Lemma extend_inj (w : world) o1 c1 o2 c2 :
  extend w o1 c1 = extend w o2 c2 -> o1 = o2 /\ c1 = c2.
Proof.
  unfold extend. intro H. injection H as Ho Hc.
  split; eapply app_inv_head; eassumption.
Qed.

(** ** Bisection: rejected inputs *)

(** [bisection] with [a >= b] returns [None] at once: the evaluator is not
    called, even one that would raise, and nothing is printed. *)
Theorem bisection_rejects_reversed_bounds
    (a b : Q) (f : evaluator) (epsilon : Q) (max_iter : Z) (w : world) :
  b <= a -> bisection a b f epsilon max_iter w = (Ok None, w).
Proof.
  intro H. apply Qle_bool_iff in H.
  unfold bisection, def, bind. now rewrite H.
Qed.

Lemma bisection_rejects_reversed_bounds_witness :
  bisection 1 0 on_the_left (1 # 1000000) 100 w0 = (Ok None, w0).
Proof.
  apply (bisection_rejects_reversed_bounds 1 0 on_the_left (1 # 1000000) 100 w0).
  discriminate.
Defined.

(** ** Bisection: a root at an endpoint *)

(** When [f(a) * f(b) == 0] and [epsilon > 0], [bisection] makes its two
    calls and returns an endpoint where [|f| < epsilon] with the count [0];
    the loop is not entered and nothing is printed. *)
Theorem bisection_endpoint_root
    (a b : Q) (f : evaluator) (epsilon : Q) (max_iter : Z) (w : world)
    (u v : Q) :
  a < b -> f a = Ok u -> f b = Ok v -> u * v == 0 -> 0 < epsilon ->
  exists c y,
    bisection a b f epsilon max_iter w
    = (Ok (Some (c, 0%Z)), extend w [] [(Fn_f, a); (Fn_f, b)]) /\
    (c = a \/ c = b) /\ f c = Ok y /\ Qabs y < epsilon.
Proof.
  intros Hlt Ea Eb Hz He.
  destruct (bisection a b f epsilon max_iter w) as [r w'] eqn:E.
  pose proof (bisection_inv _ _ _ _ _ _ _ _ E) as Hinv. simpl in Hinv.
  destruct Hinv as [(L & _)|[(_ & e & Ea' & _)|(_ & u' & Ea' & Hinv)]];
    [lra | congruence |].
  destruct Hinv as [(e & Eb' & _)|(v' & Eb' & Hinv)]; [congruence|].
  rewrite Ea in Ea'. rewrite Eb in Eb'.
  injection Ea' as <-. injection Eb' as <-.
  destruct Hinv as [(Hpos & _)|(_ & Hinv)]; [lra|].
  destruct Hinv as [(Hu & -> & ->)|[(_ & Hv & -> & ->)|(Hu & Hv & _)]].
  - exists a, u. auto.
  - exists b, v. auto.
  - exfalso.
    assert (Hnz : ~ u == 0 /\ ~ v == 0).
    { split; intro Z0; rewrite Z0 in *;
        [change (Qabs 0) with 0 in Hu | change (Qabs 0) with 0 in Hv]; lra. }
    destruct Hnz as [Hu0 Hv0].
    destruct (Qmult_integral _ _ Hz); contradiction.
Qed.

Lemma bisection_endpoint_root_witness :
  exists c y,
    bisection 0 1 (total (fun x => x * (x - (3 # 2)))) (1 # 1000000) 100 w0
    = (Ok (Some (c, 0%Z)), extend w0 [] [(Fn_f, 0); (Fn_f, 1)]) /\
    (c = 0 \/ c = 1) /\
    total (fun x => x * (x - (3 # 2))) c = Ok y /\ Qabs y < 1 # 1000000.
Proof.
  apply (bisection_endpoint_root 0 1 (total (fun x => x * (x - (3 # 2))))
           (1 # 1000000) 100 w0 (0 * (0 - (3 # 2))) (1 * (1 - (3 # 2))));
    reflexivity.
Defined.

(** ** Bisection: where the result lies and what it costs *)

(** In exact arithmetic, whatever the evaluator does, a point returned by
    [bisection] lies in [[a, b]].  (On doubles the sum [a + b] can overflow
    and [float(a)] can round an integer away from [a].) *)
Theorem bisection_result_in_interval
    (a b : Q) (f : evaluator) (epsilon : Q) (max_iter : Z)
    (w : world) (c : Q) (n : Z) (w' : world) :
  bisection a b f epsilon max_iter w = (Ok (Some (c, n)), w') ->
  a <= c /\ c <= b.
Proof.
  intro H.
  pose proof (bisection_inv _ _ _ _ _ _ _ _ H) as Hinv. simpl in Hinv.
  destruct Hinv as [(_ & Hr & _)|[(_ & e & _ & Hr & _)|(L & u & _ & Hinv)]];
    try discriminate.
  destruct Hinv as [(e & _ & Hr & _)|(v & _ & Hinv)]; [discriminate|].
  destruct Hinv as [(_ & Hr & _)|(_ & Hinv)]; [discriminate|].
  destruct Hinv as [(_ & Hr & _)|[(_ & _ & Hr & _)|(_ & _ & Hinv)]].
  - injection Hr as -> _. lra.
  - injection Hr as -> _. lra.
  - destruct Hinv as [(r0 & El & Hr)|(st & w1 & El & Hr & _)].
    + injection Hr as <-.
      destruct (bisection_loop_geometry f epsilon _
                  (mkBisection u v 0 a b) _ _ _ L El)
        as (cs & _ & _ & A & B).
      simpl in A, B. lra.
    + injection Hr as -> _.
      destruct (bisection_loop_geometry f epsilon _
                  (mkBisection u v 0 a b) _ _ _ L El)
        as (cs & _ & _ & A & B & C & _).
      simpl in A, C.
      split.
      * apply Qle_shift_div_l; [reflexivity | lra].
      * apply Qle_shift_div_r; [reflexivity | lra].
Qed.

Lemma bisection_result_in_interval_witness :
  0 <= 88 # 128 /\ 88 # 128 <= 1.
Proof.
  apply (bisection_result_in_interval 0 1 sq (1 # 100) 3 w0 (88 # 128) 3
           (snd (bisection 0 1 sq (1 # 100) 3 w0))).
  vm_compute. reflexivity.
Defined.

(** With [max_iter >= 0], the count [n] returned by [bisection] lies in
    [0 .. max_iter], and the call evaluated [f] exactly [n + 2] times: at
    the two bounds and once in each pass. *)
Theorem bisection_cost
    (a b : Q) (f : evaluator) (epsilon : Q) (max_iter : Z)
    (w : world) (c : Q) (n : Z) (w' : world) :
  (0 <= max_iter)%Z ->
  bisection a b f epsilon max_iter w = (Ok (Some (c, n)), w') ->
  (0 <= n <= max_iter)%Z /\
  exists cs, calls w' = calls w ++ cs /\ Z.of_nat (List.length cs) = (n + 2)%Z.
Proof.
  intros Hm H.
  pose proof (bisection_inv _ _ _ _ _ _ _ _ H) as Hinv. simpl in Hinv.
  destruct Hinv as [(_ & Hr & _)|[(_ & e & _ & Hr & _)|(L & u & _ & Hinv)]];
    try discriminate.
  destruct Hinv as [(e & _ & Hr & _)|(v & _ & Hinv)]; [discriminate|].
  destruct Hinv as [(_ & Hr & _)|(_ & Hinv)]; [discriminate|].
  destruct Hinv as [(_ & Hr & ->)|[(_ & _ & Hr & ->)|(_ & _ & Hinv)]].
  - injection Hr as -> ->. split; [lia|]. now eexists.
  - injection Hr as -> ->. split; [lia|]. now eexists.
  - destruct Hinv as [(r0 & El & Hr)|(st & w1 & El & Hr & ->)].
    + injection Hr as <-.
      destruct (bisection_loop_geometry f epsilon _
                  (mkBisection u v 0 a b) _ _ _ L El)
        as (cs & -> & (k & Hk & Hlen) & _).
      apply nth_error_range in Hk. destruct Hk as [-> Hk].
      split; [lia|].
      exists ([(Fn_f, a); (Fn_f, b)] ++ cs). split.
      * simpl. rewrite ?app_nil_r, <- ?app_assoc. reflexivity.
      * rewrite List.length_app. cbn [List.length]. lia.
    + injection Hr as _ ->.
      destruct (bisection_loop_geometry f epsilon _
                  (mkBisection u v 0 a b) _ _ _ L El)
        as (cs & -> & Hlen & _).
      rewrite length_range in Hlen.
      split; [lia|].
      exists ([(Fn_f, a); (Fn_f, b)] ++ cs). split.
      * simpl. rewrite ?app_nil_r, <- ?app_assoc. reflexivity.
      * rewrite List.length_app. cbn [List.length]. lia.
Qed.

Lemma bisection_cost_witness :
  (0 <= 2 <= 10)%Z /\
  exists cs,
    calls (snd (bisection 0 1 (total (fun x => x - (3 # 4))) (1 # 100) 10 w0))
    = calls w0 ++ cs /\
    Z.of_nat (List.length cs) = (2 + 2)%Z.
Proof.
  apply (bisection_cost 0 1 (total (fun x => x - (3 # 4))) (1 # 100) 10 w0
           (3 # 4)); [discriminate | vm_compute; reflexivity].
Defined.

(** [bisection] prints at most one line, the notice, and only together
    with a pair whose count is [max_iter]: a call that returns [None], or a
    pair with another count, prints nothing. *)
Theorem bisection_notice_only_when_exhausted
    (a b : Q) (f : evaluator) (epsilon : Q) (max_iter : Z)
    (w : world) (r : result (option (Q * Z))) (w' : world) :
  bisection a b f epsilon max_iter w = (r, w') ->
  stdout w' = stdout w \/
  (stdout w' = stdout w ++ [bisection_notice max_iter] /\
   exists c, r = Ok (Some (c, max_iter))).
Proof.
  intro H.
  pose proof (bisection_inv _ _ _ _ _ _ _ _ H) as Hinv. simpl in Hinv.
  destruct Hinv as [(_ & _ & ->)|[(_ & e & _ & _ & ->)|(L & u & _ & Hinv)]];
    [now left | left; simpl; now rewrite app_nil_r |].
  destruct Hinv as [(e & _ & _ & ->)|(v & _ & Hinv)];
    [left; simpl; now rewrite app_nil_r|].
  destruct Hinv as [(_ & _ & ->)|(_ & Hinv)];
    [left; simpl; now rewrite app_nil_r|].
  destruct Hinv as [(_ & _ & ->)|[(_ & _ & _ & ->)|(_ & _ & Hinv)]];
    [left; simpl; now rewrite app_nil_r ..|].
  destruct Hinv as [(r0 & El & _)|(st & w1 & El & -> & ->)].
  - left.
    destruct (bisection_loop_geometry f epsilon _
                (mkBisection u v 0 a b) _ _ _ L El) as (cs & -> & _).
    simpl. now rewrite !app_nil_r.
  - right.
    destruct (bisection_loop_geometry f epsilon _
                (mkBisection u v 0 a b) _ _ _ L El) as (cs & -> & _).
    split; [simpl; now rewrite !app_nil_r | now eexists].
Qed.

Lemma bisection_notice_only_when_exhausted_witness :
  stdout (snd (bisection 0 1 sq (1 # 100) 3 w0)) = stdout w0 \/
  (stdout (snd (bisection 0 1 sq (1 # 100) 3 w0))
   = stdout w0 ++ [bisection_notice 3] /\
   exists c, fst (bisection 0 1 sq (1 # 100) 3 w0) = Ok (Some (c, 3%Z))).
Proof.
  apply (bisection_notice_only_when_exhausted 0 1 sq (1 # 100) 3 w0).
  vm_compute. reflexivity.
Defined.

(** In exact arithmetic, after [k] passes that did not return, whatever
    the evaluator gave, the current interval lies in [[a, b]] and its width
    is [(b - a) / 2 ^ k].  (On doubles the midpoint is rounded, and the width
    stops shrinking once the endpoints are neighbours.) *)
Theorem bisection_interval_halves
    (a b u v : Q) (f : evaluator) (epsilon : Q) (k : Z)
    (w : world) (st : bisection_locals) (w' : world) :
  a < b -> (0 <= k)%Z ->
  for_ (range 1 (k + 1)) (bisection_body f epsilon)
       (mkBisection u v 0 (float a) (float b)) w = (Normal st, w') ->
  a <= current_a st /\ current_a st < current_b st /\ current_b st <= b /\
  current_b st - current_a st == (b - a) / 2 ^ k.
Proof.
  intros Hlt Hk Hrun.
  destruct (bisection_loop_geometry f epsilon _
              (mkBisection u v 0 (float a) (float b)) _ _ _ Hlt Hrun)
    as (cs & _ & _ & A & B & C & D).
  rewrite length_range in D. unfold float in *. simpl in A, C, D.
  replace (Z.of_nat (Z.to_nat (k + 1 - 1))) with k in D by lia.
  repeat split; try assumption.
  assert (Hp : 0 < 2 ^ k) by (apply Qpower_0_lt; reflexivity).
  rewrite <- D. field. lra.
Qed.

Lemma bisection_interval_halves_witness :
  exists st w',
    for_ (range 1 (3 + 1)) (bisection_body sq (1 # 100))
         (mkBisection (parabola 0) (parabola 1) 0 (float 0) (float 1)) w0
    = (Normal st, w') /\
    0 <= current_a st /\ current_a st < current_b st /\ current_b st <= 1 /\
    current_b st - current_a st == (1 - 0) / 2 ^ 3.
Proof.
  eexists _, _. split; [vm_compute; reflexivity|].
  apply (bisection_interval_halves 0 1 (parabola 0) (parabola 1) sq (1 # 100)
           3 w0 _ (mkWorld [] [(Fn_f, 1 # 2); (Fn_f, 3 # 4); (Fn_f, 10 # 16)]));
    [reflexivity | discriminate | vm_compute; reflexivity].
Defined.

(** ** Secant: every way a call can end *)

Lemma secant_body_run f epsilon x st w :
  secant_body f epsilon x st w =
  (let c := sec_b st - sec_fb st * (sec_b st - sec_a st)
                       / (sec_fb st - sec_fa st) in
   let i := (sec_i st + 1)%Z in
   if sec_fb st ==? sec_fa st then (Returned None, w)
   else
     (match f c with
      | Raises e => Raised e
      | Ok fc =>
          if (Qabs fc <? epsilon) || (Qabs (c - sec_b st) <? epsilon)
          then Returned (Some (c, i))
          else if sec_fa st * fc <? 0
               then Normal (mkSecant (sec_a st) c (sec_fa st) fc i (Some c))
               else Normal (mkSecant c (sec_b st) fc (sec_fb st) i (Some c))
      end,
      extend w [] [(Fn_f, c)])).
Proof.
  unfold secant_body, bind, when, call. simpl.
  destruct (sec_fb st ==? sec_fa st); simpl; [reflexivity|].
  destruct (f _) as [fc|e]; simpl; [|f_equal; world_eq].
  destruct (_ || _); simpl; [unfold return_; f_equal; world_eq|].
  destruct (sec_fa st * fc <? 0); unfold ret; f_equal; world_eq.
Qed.

(** Each pass that goes on makes one call and adds one to [i]; a pair is
    returned with the number of the pass that returns it. *)
Lemma secant_loop_cost f epsilon xs :
  forall st w s w',
    for_ xs (secant_body f epsilon) st w = (s, w') ->
    exists cs,
      w' = extend w [] cs /\
      match s with
      | Normal st' =>
          List.length cs = List.length xs /\
          sec_i st' = (sec_i st + Z.of_nat (List.length xs))%Z /\
          (xs = [] -> sec_c st' = sec_c st)
      | Returned (Some (c, n)) =>
          (sec_i st < n <= sec_i st + Z.of_nat (List.length xs))%Z /\
          Z.of_nat (List.length cs) = (n - sec_i st)%Z
      | Returned None => True
      | Raised e => exists x, In (Fn_f, x) cs /\ f x = Raises e
      end.
Proof.
  induction xs as [|x xs IH]; intros st w s w'; simpl.
  - unfold ret. intro H. injection H as <- <-. exists [].
    split; [now rewrite extend_nil|]. simpl. repeat split; lia.
  - unfold bind. rewrite secant_body_run. cbv zeta.
    set (c := sec_b st - sec_fb st * (sec_b st - sec_a st)
                         / (sec_fb st - sec_fa st)).
    destruct (sec_fb st ==? sec_fa st).
    { intro H. injection H as <- <-. exists [].
      split; [now rewrite extend_nil | exact I]. }
    assert (Hstep : forall st1,
      sec_i st1 = (sec_i st + 1)%Z ->
      for_ xs (secant_body f epsilon) st1 (extend w [] [(Fn_f, c)])
      = (s, w') ->
      exists cs,
        w' = extend w [] cs /\
        match s with
        | Normal st' =>
            List.length cs = S (List.length xs) /\
            sec_i st' = (sec_i st + Z.of_nat (S (List.length xs)))%Z /\
            (x :: xs = [] -> sec_c st' = sec_c st)
        | Returned (Some (c', n)) =>
            (sec_i st < n <= sec_i st + Z.of_nat (S (List.length xs)))%Z /\
            Z.of_nat (List.length cs) = (n - sec_i st)%Z
        | Returned None => True
        | Raised e => exists x, In (Fn_f, x) cs /\ f x = Raises e
        end).
    { intros st1 Hi Hrun.
      destruct (IH _ _ _ _ Hrun) as (cs & -> & Hs).
      exists ((Fn_f, c) :: cs). split; [world_eq|].
      destruct s as [st'|[[c' n]|]|e]; cbv beta iota; try exact I.
      - destruct Hs as (L & Hi' & _). cbn [List.length].
        repeat split; [lia | lia | discriminate].
      - destruct Hs as (Hn & L). cbn [List.length]. lia.
      - destruct Hs as (y & Hin & Hy). exists y. split; [now right | exact Hy]. }
    destruct (f c) as [fc|e] eqn:Ec.
    + destruct (_ || _).
      { intro H. injection H as <- <-. exists [(Fn_f, c)].
        split; [reflexivity|]. cbn [List.length]. lia. }
      destruct (sec_fa st * fc <? 0); apply Hstep; reflexivity.
    + intro H. injection H as <- <-. exists [(Fn_f, c)].
      split; [reflexivity|]. exists c. split; [now left | exact Ec].
Qed.

(** The ways a call of [secant] ends, with the world each leaves. *)
Lemma secant_inv a b f epsilon max_iters w r w' :
  secant a b f epsilon max_iters w = (r, w') ->
  let loop u v :=
    for_ (range 0 max_iters) (secant_body f epsilon)
         (mkSecant a b u v 0 None) (extend w [] [(Fn_f, a); (Fn_f, b)]) in
  (exists e, f a = Raises e /\ r = Raises e /\ w' = extend w [] [(Fn_f, a)]) \/
  (exists u,
      f a = Ok u /\
      ((exists e, f b = Raises e /\ r = Raises e
                  /\ w' = extend w [] [(Fn_f, a); (Fn_f, b)]) \/
       exists v,
         f b = Ok v /\
         ((0 <= u * v /\ r = Ok None
           /\ w' = extend w [] [(Fn_f, a); (Fn_f, b)]) \/
          (u * v < 0 /\
           ((exists r0, loop u v = (Returned r0, w') /\ r = Ok r0) \/
            (exists e, loop u v = (Raised e, w') /\ r = Raises e) \/
            (exists st,
                loop u v = (Normal st, w') /\
                match sec_c st with
                | Some c => r = Ok (Some (c, sec_i st))
                | None => r = Raises (UnboundLocalError "c")
                end)))))).
Proof.
  intros H loop. unfold secant, def in H.
  unfold bind at 1 in H. unfold call at 1 in H.
  destruct (f a) as [u|e] eqn:Ea.
  2:{ left. exists e. injection H as <- <-.
      split; [reflexivity|]. split; [reflexivity|]. world_eq. }
  right. exists u. split; [reflexivity|].
  unfold bind at 1 in H. unfold call at 1 in H.
  assert (Ew : {| stdout := stdout {| stdout := stdout w;
                                      calls := calls w ++ [(Fn_f, a)] |};
                  calls := calls {| stdout := stdout w;
                                    calls := calls w ++ [(Fn_f, a)] |}
                           ++ [(Fn_f, b)] |}
               = extend w [] [(Fn_f, a); (Fn_f, b)]) by world_eq.
  rewrite Ew in H.
  destruct (f b) as [v|e] eqn:Eb.
  2:{ left. exists e. injection H as <- <-. auto. }
  right. exists v. split; [reflexivity|].
  unfold bind at 1 in H.
  destruct (u * v >=? 0) eqn:E; simpl in H.
  { left. apply Qle_bool_iff in E. injection H as <- <-. auto. }
  right.
  assert (Hneg : u * v < 0).
  { apply Qnot_le_lt. intro L. apply Qle_bool_iff in L. congruence. }
  split; [exact Hneg|].
  unfold bind at 1 in H. fold (loop u v) in H.
  destruct (loop u v) as [[st|r0|e] w1].
  - right; right. exists st.
    unfold bind, read_local in H.
    destruct (sec_c st) as [c|]; simpl in H; injection H as <- <-; auto.
  - left. exists r0. injection H as <- <-. auto.
  - right; left. exists e. injection H as <- <-. auto.
Qed.

(** ** Secant: the bracket, in exact arithmetic *)

(** The point the secant through two values of opposite signs crosses zero
    at lies between the two points. *)
Lemma false_position_between (lo hi a b fa fb : Q) :
  fa * fb < 0 ->
  lo <= a -> a <= hi -> lo <= b -> b <= hi ->
  lo <= b - fb * (b - a) / (fb - fa) /\ b - fb * (b - a) / (fb - fa) <= hi.
Proof.
  intros Hs La Ha Lb Hb.
  destruct (sign_cases fa) as [[Sa _]|[[Sa _]|[Sa _]]];
    [| rewrite Sa in Hs; lra |];
  destruct (sign_cases fb) as [[Sb _]|[[Sb _]|[Sb _]]];
    try (rewrite Sb in Hs; lra); try (exfalso; nra).
  - assert (Hd : 0 < fb - fa) by lra.
    assert (E : b - fb * (b - a) / (fb - fa)
                == (a * fb - b * fa) / (fb - fa)) by (field; lra).
    rewrite E. split.
    + apply Qle_shift_div_l; [exact Hd | nra].
    + apply Qle_shift_div_r; [exact Hd | nra].
  - assert (Hd : 0 < fa - fb) by lra.
    assert (E : b - fb * (b - a) / (fb - fa)
                == (b * fa - a * fb) / (fa - fb)) by (field; lra).
    rewrite E. split.
    + apply Qle_shift_div_l; [exact Hd | nra].
    + apply Qle_shift_div_r; [exact Hd | nra].
Qed.

Lemma secant_loop_brackets f epsilon lo hi xs :
  0 < epsilon ->
  forall st w s w',
    secant_brackets lo hi st ->
    for_ xs (secant_body f epsilon) st w = (s, w') ->
    match s with
    | Normal st' =>
        secant_brackets lo hi st' /\
        (sec_c st' = sec_c st \/
         exists c, sec_c st' = Some c /\ lo <= c /\ c <= hi)
    | Returned (Some (c, n)) => lo <= c /\ c <= hi
    | Returned None => False
    | Raised _ => True
    end.
Proof.
  intro He. induction xs as [|x xs IH]; intros st w s w' Hst; simpl.
  - unfold ret. intro H. injection H as <- _. split; [exact Hst | now left].
  - unfold bind. rewrite secant_body_run. cbv zeta.
    destruct Hst as (Hs & La & Ha & Lb & Hb).
    destruct (false_position_between lo hi _ _ _ _ Hs La Ha Lb Hb)
      as [Lc Hc].
    set (c := sec_b st - sec_fb st * (sec_b st - sec_a st)
                         / (sec_fb st - sec_fa st)) in *.
    destruct (sec_fb st ==? sec_fa st) eqn:Ed.
    { exfalso. apply Qeq_bool_iff in Ed. rewrite Ed in Hs.
      assert (0 <= sec_fa st * sec_fa st) by nra. lra. }
    assert (Hstep : forall st1,
      secant_brackets lo hi st1 ->
      (exists c1, sec_c st1 = Some c1 /\ lo <= c1 /\ c1 <= hi) ->
      for_ xs (secant_body f epsilon) st1 (extend w [] [(Fn_f, c)])
      = (s, w') ->
      match s with
      | Normal st' =>
          secant_brackets lo hi st' /\
          (sec_c st' = sec_c st \/
           exists c, sec_c st' = Some c /\ lo <= c /\ c <= hi)
      | Returned (Some (c, n)) => lo <= c /\ c <= hi
      | Returned None => False
      | Raised _ => True
      end).
    { intros st1 H1 Hc1 Hrun. specialize (IH _ _ _ _ H1 Hrun).
      destruct s as [st'|[[c' n]|]|e]; try assumption.
      destruct IH as [H2 [E|H3]]; (split; [exact H2|]); right;
        [rewrite E; exact Hc1 | exact H3]. }
    destruct (f c) as [fc|e].
    + destruct (_ || _) eqn:E0.
      { intro H. injection H as <- _. now split. }
      apply orb_false_iff in E0. destruct E0 as [E1 _].
      apply Qlt_bool_false_iff in E1.
      pose proof (Qabs_large_nonzero _ _ He E1) as Hfc.
      destruct (sec_fa st * fc <? 0) eqn:E2; apply Hstep.
      * apply Qlt_bool_iff in E2. repeat split; simpl; assumption.
      * exists c. simpl. auto.
      * apply Qlt_bool_false_iff in E2. repeat split; simpl; try assumption.
        by_signs (sec_fa st) (sec_fb st) fc.
      * exists c. simpl. auto.
    + intro H. injection H as <- _. exact I.
Qed.

(** In exact arithmetic with [epsilon > 0], [secant] returns [None] exactly
    when [f] gives values at [a] and at [b] with [f(a) * f(b) >= 0] (a value
    that is zero at a bound included); once the sign test is passed the two
    cached values keep opposite signs, so the test [fb == fa] never succeeds.
    (On doubles a product of two tiny values underflows to zero, and both
    returns of [None] can then be taken with values of opposite signs.) *)
Theorem secant_none_iff
    (a b : Q) (f : evaluator) (epsilon : Q) (max_iters : Z) (w : world) :
  0 < epsilon ->
  (fst (secant a b f epsilon max_iters w) = Ok None <->
   exists u v, f a = Ok u /\ f b = Ok v /\ 0 <= u * v).
Proof.
  intro He.
  destruct (secant a b f epsilon max_iters w) as [r w'] eqn:E. simpl.
  pose proof (secant_inv _ _ _ _ _ _ _ _ E) as Hinv. simpl in Hinv.
  split.
  - intros ->.
    destruct Hinv as [(e & _ & Hr & _)|(u & Ea & Hinv)]; [discriminate|].
    destruct Hinv as [(e & _ & Hr & _)|(v & Eb & Hinv)]; [discriminate|].
    destruct Hinv as [(Hpos & _)|(Hneg & Hinv)]; [now exists u, v|].
    exfalso.
    assert (H0 : secant_brackets (Qmin a b) (Qmax a b)
                   (mkSecant a b u v 0 None)).
    { repeat split; simpl; try assumption;
        auto using Q.le_min_l, Q.le_min_r, Q.le_max_l, Q.le_max_r. }
    destruct Hinv as [(r0 & El & Hr)|[(e & _ & Hr)|(st & El & Hr)]].
    + injection Hr as <-.
      exact (secant_loop_brackets _ _ _ _ _ He _ _ _ _ H0 El).
    + discriminate.
    + destruct (sec_c st); discriminate.
  - intros (u & v & Ea & Eb & Hpos).
    destruct Hinv as [(e & Ea' & _)|(u' & Ea' & Hinv)]; [congruence|].
    destruct Hinv as [(e & Eb' & _)|(v' & Eb' & Hinv)]; [congruence|].
    destruct Hinv as [(_ & Hr & _)|(Hneg & _)]; [exact Hr|].
    exfalso. rewrite Ea in Ea'. rewrite Eb in Eb'.
    injection Ea' as <-. injection Eb' as <-. lra.
Qed.

Lemma secant_none_iff_witness :
  fst (secant 0 1 (total (fun x => x * (x - (3 # 2)))) (1 # 1000000) 100 w0)
  = Ok None <->
  exists u v,
    total (fun x => x * (x - (3 # 2))) 0 = Ok u /\
    total (fun x => x * (x - (3 # 2))) 1 = Ok v /\ 0 <= u * v.
Proof.
  apply (secant_none_iff 0 1 (total (fun x => x * (x - (3 # 2))))
           (1 # 1000000) 100 w0).
  reflexivity.
Defined.

(** In exact arithmetic with [epsilon > 0], a point returned by [secant]
    lies between [a] and [b], in whichever order they were given.  (On
    doubles the rounded [c] can fall just outside.) *)
Theorem secant_result_between
    (a b : Q) (f : evaluator) (epsilon : Q) (max_iters : Z)
    (w : world) (c : Q) (n : Z) (w' : world) :
  0 < epsilon ->
  secant a b f epsilon max_iters w = (Ok (Some (c, n)), w') ->
  Qmin a b <= c /\ c <= Qmax a b.
Proof.
  intros He E.
  pose proof (secant_inv _ _ _ _ _ _ _ _ E) as Hinv. simpl in Hinv.
  destruct Hinv as [(e & _ & Hr & _)|(u & Ea & Hinv)]; [discriminate|].
  destruct Hinv as [(e & _ & Hr & _)|(v & Eb & Hinv)]; [discriminate|].
  destruct Hinv as [(_ & Hr & _)|(Hneg & Hinv)]; [discriminate|].
  assert (H0 : secant_brackets (Qmin a b) (Qmax a b)
                 (mkSecant a b u v 0 None)).
  { repeat split; simpl; try assumption;
      auto using Q.le_min_l, Q.le_min_r, Q.le_max_l, Q.le_max_r. }
  destruct Hinv as [(r0 & El & Hr)|[(e & _ & Hr)|(st & El & Hr)]].
  - injection Hr as <-.
    exact (secant_loop_brackets _ _ _ _ _ He _ _ _ _ H0 El).
  - discriminate.
  - pose proof (secant_loop_brackets _ _ _ _ _ He _ _ _ _ H0 El)
      as [_ [Hc|(c1 & Hc & Hb)]]; simpl in Hc; rewrite Hc in Hr.
    + discriminate.
    + injection Hr as -> _. exact Hb.
Qed.

Lemma secant_result_between_witness :
  Qmin 0 1 <= 2048 # 3072 /\ 2048 # 3072 <= Qmax 0 1.
Proof.
  apply (secant_result_between 0 1 sq (1 # 100) 2 w0 (2048 # 3072) 2
           (snd (secant 0 1 sq (1 # 100) 2 w0)));
    [reflexivity | vm_compute; reflexivity].
Defined.

(** The count [n] returned by [secant] lies in [1 .. max_iters], and the
    call evaluated [f] exactly [n + 2] times. *)
Theorem secant_cost
    (a b : Q) (f : evaluator) (epsilon : Q) (max_iters : Z)
    (w : world) (c : Q) (n : Z) (w' : world) :
  secant a b f epsilon max_iters w = (Ok (Some (c, n)), w') ->
  (1 <= n <= max_iters)%Z /\
  exists cs, calls w' = calls w ++ cs /\ Z.of_nat (List.length cs) = (n + 2)%Z.
Proof.
  intro E.
  pose proof (secant_inv _ _ _ _ _ _ _ _ E) as Hinv. simpl in Hinv.
  destruct Hinv as [(e & _ & Hr & _)|(u & Ea & Hinv)]; [discriminate|].
  destruct Hinv as [(e & _ & Hr & _)|(v & Eb & Hinv)]; [discriminate|].
  destruct Hinv as [(_ & Hr & _)|(Hneg & Hinv)]; [discriminate|].
  destruct Hinv as [(r0 & El & Hr)|[(e & _ & Hr)|(st & El & Hr)]].
  - injection Hr as <-.
    destruct (secant_loop_cost _ _ _ _ _ _ _ El) as (cs & -> & Hn & L).
    rewrite length_range in Hn. simpl in Hn, L.
    split; [lia|].
    exists ([(Fn_f, a); (Fn_f, b)] ++ cs). split.
    + simpl. rewrite ?app_nil_r, <- ?app_assoc. reflexivity.
    + rewrite List.length_app. cbn [List.length]. lia.
  - discriminate.
  - destruct (secant_loop_cost _ _ _ _ _ _ _ El) as (cs & -> & L & Hi & Hc).
    rewrite length_range in *. simpl in Hi, Hc.
    destruct (sec_c st) as [c1|] eqn:Ec; [|discriminate].
    injection Hr as _ ->.
    assert (Hne : range 0 max_iters <> []).
    { intro E0. specialize (Hc E0). congruence. }
    assert (Hpos : (0 < Z.to_nat (max_iters - 0))%nat).
    { rewrite <- length_range.
      destruct (range 0 max_iters); [congruence | simpl; lia]. }
    split; [lia|].
    exists ([(Fn_f, a); (Fn_f, b)] ++ cs). split.
    + simpl. rewrite ?app_nil_r, <- ?app_assoc. reflexivity.
    + rewrite List.length_app. cbn [List.length]. lia.
Qed.

Lemma secant_cost_witness :
  (1 <= 2 <= 2)%Z /\
  exists cs,
    calls (snd (secant 0 1 sq (1 # 100) 2 w0)) = calls w0 ++ cs /\
    Z.of_nat (List.length cs) = (2 + 2)%Z.
Proof.
  apply (secant_cost 0 1 sq (1 # 100) 2 w0 (2048 # 3072)).
  vm_compute. reflexivity.
Defined.

(** ** Newton: every way a call can end *)

Lemma newton_start_run {R : Type} f ddf a b w :
  @newton_start R f ddf a b w =
  match f a with
  | Raises e => (Raised e, extend w [] [(Fn_f, a)])
  | Ok u =>
      match ddf a with
      | Raises e => (Raised e, extend w [] [(Fn_f, a); (Fn_ddf, a)])
      | Ok v =>
          if 0 <? u * v then
            (Normal a, extend w [] [(Fn_f, a); (Fn_ddf, a)])
          else
            match f b with
            | Raises e =>
                (Raised e, extend w [] [(Fn_f, a); (Fn_ddf, a); (Fn_f, b)])
            | Ok u' =>
                match ddf b with
                | Raises e =>
                    (Raised e,
                     extend w [] [(Fn_f, a); (Fn_ddf, a); (Fn_f, b);
                                  (Fn_ddf, b)])
                | Ok v' =>
                    (Normal (if 0 <? u' * v' then b else (a + b) / 2),
                     extend w [] [(Fn_f, a); (Fn_ddf, a); (Fn_f, b);
                                  (Fn_ddf, b)])
                end
            end
      end
  end.
Proof.
  unfold newton_start, bind, call.
  destruct (f a) as [u|e]; [|f_equal; world_eq].
  destruct (ddf a) as [v|e]; [|f_equal; world_eq].
  destruct (0 <? u * v); [unfold ret; f_equal; world_eq|].
  destruct (f b) as [u'|e]; [|f_equal; world_eq].
  destruct (ddf b) as [v'|e]; [|f_equal; world_eq].
  destruct (0 <? u' * v'); unfold ret; f_equal; world_eq.
Qed.

Lemma newton_body_run f df epsilon i st w :
  newton_body f df epsilon i st w =
  (let x := x_curr st in
   let n := (iteration st + 1)%Z in
   match df x with
   | Raises e => (Raised e, extend w [] [(Fn_df, x)])
   | Ok d =>
       if d ==? 0 then (Returned None, extend w [] [(Fn_df, x)])
       else
         match f x with
         | Raises e => (Raised e, extend w [] [(Fn_df, x); (Fn_f, x)])
         | Ok fx =>
             let x_new := x - fx / d in
             if Qabs (x_new - x) <? epsilon then
               (Returned (Some (x_new, n)),
                extend w [] [(Fn_df, x); (Fn_f, x)])
             else
               match f x_new with
               | Raises e =>
                   (Raised e,
                    extend w [] [(Fn_df, x); (Fn_f, x); (Fn_f, x_new)])
               | Ok y =>
                   (if Qabs y <? epsilon then Returned (Some (x_new, n))
                    else Normal (mkNewton x_new n),
                    extend w [] [(Fn_df, x); (Fn_f, x); (Fn_f, x_new)])
               end
         end
   end).
Proof.
  unfold newton_body, bind, call, when, ret, return_. cbv zeta.
  destruct (df (x_curr st)) as [d|e]; [|f_equal; world_eq].
  destruct (d ==? 0); cbv beta iota; [f_equal; world_eq|].
  destruct (f (x_curr st)) as [fx|e]; cbv beta iota; [|f_equal; world_eq].
  destruct (Qabs (x_curr st - fx / d - x_curr st) <? epsilon);
    cbv beta iota; [f_equal; world_eq|].
  destruct (f (x_curr st - fx / d)) as [y|e]; cbv beta iota;
    [|f_equal; world_eq].
  destruct (Qabs y <? epsilon); cbv beta iota; f_equal; world_eq.
Qed.

(** Each pass calls [df] once, at its start, and never calls [ddf]; a pair
    is returned with the number of the pass, one Newton step away from the
    point the pass started at, and only when one of the two tests holds. *)
Lemma newton_loop_shape f df epsilon xs :
  forall st w s w',
    for_ xs (newton_body f df epsilon) st w = (s, w') ->
    exists cs,
      w' = extend w [] cs /\
      (forall p, ~ In (Fn_ddf, p) cs) /\
      match s with
      | Normal st' =>
          iteration st' = (iteration st + Z.of_nat (List.length xs))%Z /\
          List.length (filter is_df cs) = List.length xs
      | Returned (Some (x, n)) =>
          (iteration st < n <= iteration st + Z.of_nat (List.length xs))%Z /\
          Z.of_nat (List.length (filter is_df cs)) = (n - iteration st)%Z /\
          exists x_prev d fx,
            df x_prev = Ok d /\ ~ d == 0 /\ f x_prev = Ok fx /\
            x = x_prev - fx / d /\
            (Qabs (x - x_prev) < epsilon \/
             exists y, f x = Ok y /\ Qabs y < epsilon)
      | Returned None => True
      | Raised _ => True
      end.
Proof.
  induction xs as [|i xs IH]; intros st w s w'; simpl.
  - unfold ret. intro H. injection H as <- <-. exists [].
    split; [now rewrite extend_nil|]. split; [intros p []|].
    simpl. split; [lia | reflexivity].
  - unfold bind. rewrite newton_body_run. cbv zeta.
    set (x := x_curr st).
    destruct (df x) as [d|e] eqn:Ed.
    2:{ intro H. injection H as <- <-. eexists. split; [reflexivity|].
        split; [intros p [H|[]]; discriminate | exact I]. }
    destruct (d ==? 0) eqn:Ez.
    { intro H. injection H as <- <-. eexists. split; [reflexivity|].
      split; [intros p [H|[]]; discriminate | exact I]. }
    apply Qeq_bool_neq in Ez.
    destruct (f x) as [fx|e] eqn:Ex.
    2:{ intro H. injection H as <- <-. eexists. split; [reflexivity|].
        split; [intros p [H|[H|[]]]; discriminate | exact I]. }
    set (x_new := x - fx / d).
    destruct (Qabs (x_new - x) <? epsilon) eqn:E1.
    { apply Qlt_bool_iff in E1.
      intro H. injection H as <- <-. eexists. split; [reflexivity|].
      split; [intros p [H|[H|[]]]; discriminate|].
      cbv [List.length filter is_df fst]. split; [lia|]. split; [lia|].
      exists x, d, fx. repeat split; try assumption. now left. }
    destruct (f x_new) as [y|e] eqn:En.
    2:{ intro H. injection H as <- <-. eexists. split; [reflexivity|].
        split; [intros p [H|[H|[H|[]]]]; discriminate | exact I]. }
    destruct (Qabs y <? epsilon) eqn:E2.
    { apply Qlt_bool_iff in E2.
      intro H. injection H as <- <-. eexists. split; [reflexivity|].
      split; [intros p [H|[H|[H|[]]]]; discriminate|].
      cbv [List.length filter is_df fst]. split; [lia|]. split; [lia|].
      exists x, d, fx. repeat split; try assumption. right. now exists y. }
    intro Hrun. destruct (IH _ _ _ _ Hrun) as (cs & -> & Hdd & Hs).
    exists ([(Fn_df, x); (Fn_f, x); (Fn_f, x_new)] ++ cs).
    split; [world_eq|]. split.
    { intros p Hin. apply in_app_or in Hin.
      destruct Hin as [[H|[H|[H|[]]]]|Hin]; try discriminate.
      now apply (Hdd p). }
    assert (Ef : filter is_df ([(Fn_df, x); (Fn_f, x); (Fn_f, x_new)] ++ cs)
                 = (Fn_df, x) :: filter is_df cs) by reflexivity.
    destruct s as [st'|[[x' n]|]|e]; try exact I;
      rewrite Ef; cbn [List.length]; cbn [iteration] in Hs.
    + destruct Hs as [Hi L]. split; [lia | now rewrite L].
    + destruct Hs as (Hn & L & Hx). split; [lia|]. split; [lia | exact Hx].
Qed.

Lemma newton_inv f df ddf a b epsilon max_iter w r w' :
  newton f df ddf a b epsilon max_iter w = (r, w') ->
  exists s0 w1,
    @newton_start (option (Q * Z)) f ddf a b w = (s0, w1) /\
    match s0 with
    | Raised e => r = Raises e /\ w' = w1
    | Returned r0 => r = Ok r0 /\ w' = w1
    | Normal x0 =>
        let loop :=
          for_ (range 0 max_iter) (newton_body f df epsilon)
               (mkNewton x0 0) w1 in
        (exists r0, loop = (Returned r0, w') /\ r = Ok r0) \/
        (exists e, loop = (Raised e, w') /\ r = Raises e) \/
        (exists st, loop = (Normal st, w')
                    /\ r = Ok (Some (x_curr st, iteration st)))
    end.
Proof.
  unfold newton, def, newton_iterate. unfold bind at 1.
  destruct (newton_start f ddf a b w) as [[x0|r0|e] w1]; intro H.
  - exists (Normal x0), w1. split; [reflexivity|]. cbv zeta.
    unfold bind in H.
    destruct (for_ (range 0 max_iter) (newton_body f df epsilon)
                (mkNewton x0 0) w1) as [[st|r0|e] w2].
    + right; right. exists st. unfold return_ in H.
      injection H as <- <-. auto.
    + left. exists r0. injection H as <- <-. auto.
    + right; left. exists e. injection H as <- <-. auto.
  - exists (Returned r0), w1. injection H as <- <-. auto.
  - exists (Raised e), w1. injection H as <- <-. auto.
Qed.

Lemma newton_start_shape {R : Type} f ddf a b w (s0 : signal R Q) w1 :
  newton_start f ddf a b w = (s0, w1) ->
  exists cs,
    w1 = extend w [] cs /\
    filter is_df cs = [] /\
    (forall p, In (Fn_ddf, p) cs -> p = a \/ p = b) /\
    match s0 with
    | Returned _ => False
    | _ => True
    end.
Proof.
  rewrite newton_start_run.
  assert (Hdd : forall (cs : list (callee * Q)),
             incl cs [(Fn_f, a); (Fn_ddf, a); (Fn_f, b); (Fn_ddf, b)] ->
             forall p, In (Fn_ddf, p) cs -> p = a \/ p = b).
  { intros cs Hcs p Hin. apply Hcs in Hin.
    destruct Hin as [H|[H|[H|[H|[]]]]]; try discriminate;
      injection H as <-; auto. }
  destruct (f a) as [u|e].
  2:{ intro H. injection H as <- <-. eexists. split; [reflexivity|].
      split; [reflexivity|]. split; [|exact I].
      apply Hdd. intros q [<-|[]]. simpl. auto. }
  destruct (ddf a) as [v|e].
  2:{ intro H. injection H as <- <-. eexists. split; [reflexivity|].
      split; [reflexivity|]. split; [|exact I].
      apply Hdd. intros q [<-|[<-|[]]]; simpl; auto. }
  destruct (0 <? u * v).
  { intro H. injection H as <- <-. eexists. split; [reflexivity|].
    split; [reflexivity|]. split; [|exact I].
    apply Hdd. intros q [<-|[<-|[]]]; simpl; auto. }
  destruct (f b) as [u'|e].
  2:{ intro H. injection H as <- <-. eexists. split; [reflexivity|].
      split; [reflexivity|]. split; [|exact I].
      apply Hdd. intros q [<-|[<-|[<-|[]]]]; simpl; auto. }
  destruct (ddf b) as [v'|e]; intro H; injection H as <- <-; eexists;
    (split; [reflexivity|]); (split; [reflexivity|]); (split; [|exact I]);
    apply Hdd; apply incl_refl.
Qed.

(** ** Newton: what a result means and what it costs *)

(** With [max_iter >= 0], the count [n] returned by [newton] lies in
    [0 .. max_iter], and the call evaluated [df] exactly [n] times. *)
Theorem newton_cost
    (f df ddf : evaluator) (a b epsilon : Q) (max_iter : Z)
    (w : world) (x : Q) (n : Z) (w' : world) :
  (0 <= max_iter)%Z ->
  newton f df ddf a b epsilon max_iter w = (Ok (Some (x, n)), w') ->
  (0 <= n <= max_iter)%Z /\
  exists cs,
    calls w' = calls w ++ cs /\
    Z.of_nat (List.length (filter is_df cs)) = n.
Proof.
  intros Hm H.
  destruct (newton_inv _ _ _ _ _ _ _ _ _ _ H) as (s0 & w1 & Es & Hinv).
  destruct (newton_start_shape _ _ _ _ _ _ _ Es) as (cs0 & -> & Hdf & _ & Hs0).
  destruct s0 as [x0|r0|e]; [|contradiction | destruct Hinv; discriminate].
  cbv zeta in Hinv.
  destruct Hinv as [(r0 & El & Hr)|[(e & _ & Hr)|(st & El & Hr)]];
    [|discriminate|];
    destruct (newton_loop_shape _ _ _ _ _ _ _ _ El) as (cs & -> & _ & Hs).
  - injection Hr as <-. destruct Hs as (Hn & L & _).
    rewrite length_range in Hn. cbn [iteration] in Hn, L.
    split; [lia|]. exists (cs0 ++ cs). split.
    + simpl. rewrite ?app_nil_r, <- ?app_assoc. reflexivity.
    + rewrite filter_app, Hdf. simpl. lia.
  - injection Hr as _ ->. destruct Hs as (Hi & L).
    rewrite length_range in Hi, L. cbn [iteration] in Hi.
    split; [lia|]. exists (cs0 ++ cs). split.
    + simpl. rewrite ?app_nil_r, <- ?app_assoc. reflexivity.
    + rewrite filter_app, Hdf. simpl. lia.
Qed.

Lemma newton_cost_witness :
  (0 <= 2 <= 3)%Z /\
  exists cs,
    calls (snd (newton sq dsq ddsq 0 1 (1 # 100) 3 w0)) = calls w0 ++ cs /\
    Z.of_nat (List.length (filter is_df cs)) = 2%Z.
Proof.
  apply (newton_cost sq dsq ddsq 0 1 (1 # 100) 3 w0 (544 # 768));
    [discriminate | vm_compute; reflexivity].
Defined.

(** A pair [(x, n)] returned by [newton] is either the point the loop ended
    with when the budget ran out, with [n] the number of passes made, or a
    point one Newton step [x_prev - f(x_prev) / df(x_prev)] away from an
    iterate with a nonzero derivative, at which the step or the residual is
    below [epsilon]. *)
Theorem newton_result_converged_or_exhausted
    (f df ddf : evaluator) (a b epsilon : Q) (max_iter : Z)
    (w : world) (x : Q) (n : Z) (w' : world) :
  newton f df ddf a b epsilon max_iter w = (Ok (Some (x, n)), w') ->
  n = Z.max 0 max_iter \/
  exists x_prev d fx,
    df x_prev = Ok d /\ ~ d == 0 /\ f x_prev = Ok fx /\
    x = x_prev - fx / d /\
    (Qabs (x - x_prev) < epsilon \/ exists y, f x = Ok y /\ Qabs y < epsilon).
Proof.
  intro H.
  destruct (newton_inv _ _ _ _ _ _ _ _ _ _ H) as (s0 & w1 & Es & Hinv).
  destruct (newton_start_shape _ _ _ _ _ _ _ Es) as (cs0 & -> & _ & _ & Hs0).
  destruct s0 as [x0|r0|e]; [|contradiction | destruct Hinv; discriminate].
  cbv zeta in Hinv.
  destruct Hinv as [(r0 & El & Hr)|[(e & _ & Hr)|(st & El & Hr)]];
    [|discriminate|];
    destruct (newton_loop_shape _ _ _ _ _ _ _ _ El) as (cs & _ & _ & Hs).
  - injection Hr as <-. right. apply Hs.
  - injection Hr as _ ->. left. destruct Hs as (Hi & _).
    rewrite length_range in Hi. cbn [iteration] in Hi. lia.
Qed.

Lemma newton_result_converged_or_exhausted_witness :
  2%Z = Z.max 0 3 \/
  exists x_prev d fx,
    dsq x_prev = Ok d /\ ~ d == 0 /\ sq x_prev = Ok fx /\
    544 # 768 = x_prev - fx / d /\
    (Qabs ((544 # 768) - x_prev) < 1 # 100 \/
     exists y, sq (544 # 768) = Ok y /\ Qabs y < 1 # 100).
Proof.
  apply (newton_result_converged_or_exhausted sq dsq ddsq 0 1 (1 # 100) 3 w0
           (544 # 768) 2 (snd (newton sq dsq ddsq 0 1 (1 # 100) 3 w0))).
  vm_compute. reflexivity.
Defined.

(** However a call of [newton] ends, it called [ddf] nowhere but at [a] and
    at [b]: the iteration uses [f] and [df] only. *)
Theorem newton_ddf_only_at_bounds
    (f df ddf : evaluator) (a b epsilon : Q) (max_iter : Z)
    (w : world) (r : result (option (Q * Z))) (w' : world) :
  newton f df ddf a b epsilon max_iter w = (r, w') ->
  exists cs,
    calls w' = calls w ++ cs /\
    forall p, In (Fn_ddf, p) cs -> p = a \/ p = b.
Proof.
  intro H.
  destruct (newton_inv _ _ _ _ _ _ _ _ _ _ H) as (s0 & w1 & Es & Hinv).
  destruct (newton_start_shape _ _ _ _ _ _ _ Es) as (cs0 & -> & _ & Hdd & Hs0).
  destruct s0 as [x0|r0|e]; [|contradiction|].
  - cbv zeta in Hinv.
    assert (Hl : exists s, for_ (range 0 max_iter) (newton_body f df epsilon)
                             (mkNewton x0 0) (extend w [] cs0) = (s, w')).
    { destruct Hinv as [(r0 & El & _)|[(e & El & _)|(st & El & _)]];
        eexists; exact El. }
    destruct Hl as [s El].
    destruct (newton_loop_shape _ _ _ _ _ _ _ _ El) as (cs & -> & Hno & _).
    exists (cs0 ++ cs). split.
    + simpl. rewrite ?app_nil_r, <- ?app_assoc. reflexivity.
    + intros p Hin. apply in_app_or in Hin. destruct Hin as [Hin|Hin].
      * now apply Hdd.
      * now elim (Hno p).
  - destruct Hinv as [_ ->]. exists cs0. split; [reflexivity | exact Hdd].
Qed.

Lemma newton_ddf_only_at_bounds_witness :
  exists cs,
    calls (snd (newton sq dsq ddsq 0 1 (1 # 100) 3 w0)) = calls w0 ++ cs /\
    forall p, In (Fn_ddf, p) cs -> p = 0 \/ p = 1.
Proof.
  apply (newton_ddf_only_at_bounds sq dsq ddsq 0 1 (1 # 100) 3 w0
           (fst (newton sq dsq ddsq 0 1 (1 # 100) 3 w0))).
  vm_compute. reflexivity.
Defined.

(** ** The difference quotient: exactness and exceptions *)

(** In exact arithmetic, on a quadratic [p t^2 + q t + r] the difference
    quotient is the derivative [2 p x + q] plus [p h]: exact on affine
    functions ([p = 0]), and off by a term linear in the step otherwise.
    This is the truncation error of the formula; the rounding error of the
    doubles comes on top of it. *)
Theorem difference_quotient_quadratic (p q r x h : Q) (w : world) :
  ~ h == 0 ->
  exists d,
    difference_quotient (quadratic p q r) x h w
    = (Ok (Some d), extend w [] [(Fn_f, x + h); (Fn_f, x)]) /\
    d == 2 * p * x + q + p * h.
Proof.
  intro Hh.
  assert (E : (h ==? 0) = false).
  { destruct (h ==? 0) eqn:E; [|reflexivity].
    apply Qeq_bool_iff in E. now elim Hh. }
  eexists. split.
  - unfold difference_quotient, def, bind, when, call, quadratic, total.
    rewrite E. unfold ret, return_. cbv beta iota.
    f_equal. world_eq.
  - field. exact Hh.
Qed.

Lemma difference_quotient_quadratic_witness :
  exists d,
    difference_quotient (quadratic 1 0 (-1 # 2)) 1 (1 # 10) w0
    = (Ok (Some d), extend w0 [] [(Fn_f, 1 + (1 # 10)); (Fn_f, 1)]) /\
    d == 2 * 1 * 1 + 0 + 1 * (1 # 10).
Proof.
  apply (difference_quotient_quadratic 1 0 (-1 # 2) 1 (1 # 10) w0).
  intro H. vm_compute in H. discriminate.
Defined.

(** With [h <> 0], [difference_quotient] catches nothing.  It calls [f] at
    [x + h] first: an exception there is raised at once and [f] is not called
    at [x]; an exception at [x] is raised after the two calls. *)
Theorem difference_quotient_raises
    (f : evaluator) (x h : Q) (w : world) :
  ~ h == 0 ->
  (forall e, f (x + h) = Raises e ->
     difference_quotient f x h w
     = (Raises e, extend w [] [(Fn_f, x + h)])) /\
  (forall u e, f (x + h) = Ok u -> f x = Raises e ->
     difference_quotient f x h w
     = (Raises e, extend w [] [(Fn_f, x + h); (Fn_f, x)])).
Proof.
  intro Hh.
  assert (E : (h ==? 0) = false).
  { destruct (h ==? 0) eqn:E; [|reflexivity].
    apply Qeq_bool_iff in E. now elim Hh. }
  unfold difference_quotient, def, bind, when, call. rewrite E.
  unfold ret. cbv beta iota. split.
  - intros e He. rewrite He. f_equal. world_eq.
  - intros u e Hu He. rewrite Hu, He. f_equal. world_eq.
Qed.

Lemma difference_quotient_raises_witness :
  difference_quotient on_the_left 0 (1 # 2) w0
  = (Raises domain_error, extend w0 [] [(Fn_f, 0 + (1 # 2))]) /\
  difference_quotient on_the_left (1 # 2) (1 # 2) w0
  = (Raises domain_error,
     extend w0 [] [(Fn_f, (1 # 2) + (1 # 2)); (Fn_f, 1 # 2)]).
Proof.
  split.
  - apply (proj1 (difference_quotient_raises on_the_left 0 (1 # 2) w0
                    ltac:(intro H; vm_compute in H; discriminate))).
    reflexivity.
  - apply (proj2 (difference_quotient_raises on_the_left (1 # 2) (1 # 2) w0
                    ltac:(intro H; vm_compute in H; discriminate))
             (parabola ((1 # 2) + (1 # 2)))); reflexivity.
Defined.

(** With [max_iters >= 1] and a loop that runs out on [x * x - 1/2] over
    [0, 1]. *)
Lemma secant_exhausted_returns_last_witness :
  exists c,
    Some (2048 # 3072) = Some c /\
    secant 0 1 sq (0 # 1) 2 w0
    = (Ok (Some (c, 2%Z)),
       mkWorld [] [(Fn_f, 0); (Fn_f, 1); (Fn_f, 4 # 8); (Fn_f, 2048 # 3072)]).
Proof.
  apply (secant_exhausted_returns_last sq 0 1 (0 # 1) 2 w0
           (parabola 0) (parabola 1)
           (mkSecant (2048 # 3072) 1 (-1048576 # 18874368) (1 # 2) 2
                     (Some (2048 # 3072))));
    try reflexivity.
  discriminate.
Defined.

(** * Affine functions, in exact arithmetic *)

Lemma Qabs_zero_lt (y epsilon : Q) :
  y == 0 -> 0 < epsilon -> (Qabs y <? epsilon) = true.
Proof.
  intros Hy He. apply Qlt_bool_iff. rewrite Hy. exact He.
Qed.

(** In exact arithmetic, on an affine function [m x + q] with a sign change
    between [a] and [b], [secant] returns in its first pass, and the point it
    returns is the root.  (On doubles the point is the root up to
    rounding.) *)
Theorem secant_exact_on_affine
    (m q a b epsilon : Q) (max_iters : Z) (w : world) :
  (m * a + q) * (m * b + q) < 0 ->
  0 < epsilon ->
  (1 <= max_iters)%Z ->
  exists c w',
    secant a b (quadratic 0 m q) epsilon max_iters w
    = (Ok (Some (c, 1%Z)), w') /\
    m * c + q == 0.
Proof.
  intros Hs He Hn.
  set (fa := 0 * a * a + m * a + q). set (fb := 0 * b * b + m * b + q).
  assert (Hs' : fa * fb < 0).
  { unfold fa, fb.
    setoid_replace (0 * a * a + m * a + q) with (m * a + q) by ring.
    setoid_replace (0 * b * b + m * b + q) with (m * b + q) by ring.
    exact Hs. }
  assert (Hd : ~ fb - fa == 0).
  { intro E. assert (E' : fb == fa) by lra. rewrite E' in Hs'.
    assert (0 <= fa * fa) by nra. lra. }
  assert (E1 : (fa * fb >=? 0) = false).
  { destruct (fa * fb >=? 0) eqn:E; [|reflexivity].
    apply Qle_bool_iff in E. lra. }
  assert (E2 : (fb ==? fa) = false).
  { destruct (fb ==? fa) eqn:E; [|reflexivity].
    apply Qeq_bool_iff in E. elim Hd. lra. }
  set (c := b - fb * (b - a) / (fb - fa)).
  assert (Hc : 0 * c * c + m * c + q == 0).
  { unfold c, fb, fa. field. intro E. apply Hd. unfold fb, fa. lra. }
  exists c. eexists. split.
  - unfold secant, def, bind, call, when, ret, quadratic, total.
    fold fa. fold fb. rewrite E1. cbv beta iota.
    rewrite (range_cons 0 max_iters) by lia. cbn [for_].
    unfold bind. rewrite secant_body_run. cbv zeta.
    cbn [sec_a sec_b sec_fa sec_fb sec_i].
    rewrite E2. fold c.
    rewrite (Qabs_zero_lt _ _ Hc He). cbn [orb].
    reflexivity.
  - rewrite <- Hc. ring.
Qed.

Lemma secant_exact_on_affine_witness :
  exists c w',
    secant 0 1 (quadratic 0 4 (-3)) (1 # 1000000) 100 w0
    = (Ok (Some (c, 1%Z)), w') /\
    4 * c + (-3) == 0.
Proof.
  apply (secant_exact_on_affine 4 (-3) 0 1 (1 # 1000000) 100 w0);
    [reflexivity | reflexivity | discriminate].
Defined.

(** In exact arithmetic, on an affine function [m x + q] with [m <> 0],
    given its derivative [m], [newton] returns in its first pass, whatever
    the bounds and the second derivative are, and the point it returns is the
    root.  (On doubles the point is the root up to rounding.) *)
Theorem newton_exact_on_affine
    (m q : Q) (g : Q -> Q) (a b epsilon : Q) (max_iter : Z) (w : world) :
  ~ m == 0 ->
  0 < epsilon ->
  (1 <= max_iter)%Z ->
  exists x w',
    newton (quadratic 0 m q) (total (fun _ => m)) (total g)
           a b epsilon max_iter w
    = (Ok (Some (x, 1%Z)), w') /\
    m * x + q == 0.
Proof.
  intros Hm He Hn.
  assert (Ez : (m ==? 0) = false).
  { destruct (m ==? 0) eqn:E; [|reflexivity].
    apply Qeq_bool_iff in E. now elim Hm. }
  assert (Hstep : forall x0 w1,
    exists x w',
      def (newton_iterate (quadratic 0 m q) (total (fun _ => m))
                          epsilon max_iter x0) w1
      = (Ok (Some (x, 1%Z)), w') /\ m * x + q == 0).
  { intros x0 w1.
    set (x_new := x0 - (0 * x0 * x0 + m * x0 + q) / m).
    assert (Hx : 0 * x_new * x_new + m * x_new + q == 0).
    { unfold x_new. field. exact Hm. }
    exists x_new.
    unfold def, newton_iterate. unfold bind at 1.
    rewrite (range_cons 0 max_iter) by lia. cbn [for_].
    unfold bind at 1. rewrite newton_body_run. cbv zeta.
    cbn [x_curr iteration]. unfold quadratic, total. rewrite Ez.
    fold x_new.
    destruct (Qabs (x_new - x0) <? epsilon).
    - eexists. split; [reflexivity|]. rewrite <- Hx. ring.
    - rewrite (Qabs_zero_lt _ _ Hx He).
      eexists. split; [reflexivity|]. rewrite <- Hx. ring. }
  unfold newton.
  destruct (@newton_start (option (Q * Z)) (quadratic 0 m q) (total g) a b w)
    as [s0 w1] eqn:Es.
  assert (Hs0 : exists x0, s0 = Normal x0).
  { rewrite newton_start_run in Es. unfold quadratic, total in Es.
    destruct (0 <? _) in Es; [injection Es as <- _; eauto|].
    injection Es as <- _. eauto. }
  destruct Hs0 as [x0 ->].
  destruct (Hstep x0 w1) as (x & w' & E & Hx).
  exists x, w'. split; [|exact Hx].
  unfold def in *. unfold bind at 1. rewrite Es. exact E.
Qed.

Lemma newton_exact_on_affine_witness :
  exists x w',
    newton (quadratic 0 4 (-3)) (total (fun _ => 4)) (total (fun _ => 0))
           0 1 (1 # 1000000) 100 w0
    = (Ok (Some (x, 1%Z)), w') /\
    4 * x + (-3) == 0.
Proof.
  apply (newton_exact_on_affine 4 (-3) (fun _ => 0) 0 1 (1 # 1000000) 100 w0);
    [intro H; vm_compute in H; discriminate | reflexivity | discriminate].
Defined.

(** * Bisection on doubles

    The properties of [Double.bisection]: the arithmetic is that of IEEE
    doubles, and nothing below assumes more of it than the tests the code
    itself makes. *)

Section DoubleFacts.
Import Floats.
Import Double.
Local Open Scope float_scope.
Local Open Scope double_scope.


Lemma extend_nil_double (w : world) : extend w [] [] = w.
Proof. destruct w. unfold extend. simpl. now rewrite !app_nil_r. Qed.

Ltac world_eq_double :=
  unfold extend; simpl; rewrite ?app_nil_r, <- ?app_assoc; reflexivity.

Lemma clean_no_raise f cs who x e :
  clean f cs -> In (who, x) cs -> f x = Raises e -> False.
Proof.
  intros Hc Hin Hx. unfold clean in Hc. rewrite Forall_forall in Hc.
  destruct (Hc _ Hin) as [y Hy]. simpl in Hy. congruence.
Qed.

Lemma clean_cons f who x y cs :
  f x = Ok y -> clean f cs -> clean f ((who, x) :: cs).
Proof. intros Hx Hc. constructor; [now exists y | exact Hc]. Qed.

(** ** One pass of the loop *)

Lemma bisection_body_run_double f epsilon i st w :
  bisection_body f epsilon i st w =
  (let c := (current_a st + current_b st) / 2 in
   match f c with
   | Raises _ => Returned None
   | Ok f_c =>
       if abs f_c <? epsilon then Returned (Some (c, i))
       else if f_a st * f_c <? 0 then
         Normal (mkBisection (f_a st) (f_b st) i (current_a st) c)
       else if f_c * f_b st <? 0 then
         Normal (mkBisection (f_a st) (f_b st) i c (current_b st))
       else Returned (Some (c, i))
   end,
   extend w [] [(Fn_f, (current_a st + current_b st) / 2)]).
Proof.
  unfold bisection_body, bind, try_except, call, when. cbv zeta.
  destruct (f _) as [y|e]; cbv beta iota;
    [|unfold return_; f_equal; world_eq_double].
  destruct (abs y <? epsilon); cbv beta iota;
    [unfold return_; f_equal; world_eq_double|].
  unfold ret at 1. cbv beta iota.
  destruct (f_a st * y <? 0); [unfold ret; f_equal; world_eq_double|].
  destruct (y * f_b st <? 0); [unfold ret | unfold return_];
    f_equal; world_eq_double.
Qed.

(** ** The loop

    However the arithmetic rounds, the loop ends in one of four ways: it
    makes all its passes; it returns a midpoint within the tolerance; it
    returns a midpoint at which neither sign product was negative; or it
    returns [None] after the evaluator raised at the last midpoint. *)
Lemma bisection_loop_double f epsilon xs :
  forall st w, exists s cs,
    for_ xs (bisection_body f epsilon) st w = (s, extend w [] cs) /\
    match s with
    | Normal st' => clean f cs /\ f_a st' = f_a st /\ f_b st' = f_b st
    | Returned (Some (c, n)) =>
        clean f cs /\ In n xs /\
        exists y, f c = Ok y /\
          ((abs y <? epsilon) = true \/
           ((abs y <? epsilon) = false /\
            (f_a st * y <? 0) = false /\ (y * f_b st <? 0) = false))
    | Returned None =>
        exists cs0 x e,
          cs = cs0 ++ [(Fn_f, x)] /\ clean f cs0 /\ f x = Raises e
    | Raised _ => False
    end.
Proof.
  induction xs as [|i xs IH]; intros st w.
  - exists (Normal st), []. split; [simpl; unfold ret; now rewrite extend_nil_double|].
    repeat split. constructor.
  - simpl. unfold bind. rewrite bisection_body_run_double. cbv zeta.
    set (c := (current_a st + current_b st) / 2).
    destruct (f c) as [y|e] eqn:Ec.
    2:{ exists (Returned None), [(Fn_f, c)]. split; [reflexivity|].
        exists [], c, e. repeat split; [constructor | exact Ec]. }
    destruct (abs y <? epsilon) eqn:E1.
    { exists (Returned (Some (c, i))), [(Fn_f, c)]. split; [reflexivity|].
      split; [now apply (clean_cons f Fn_f c y); [|constructor]|].
      split; [now left|]. exists y. split; [exact Ec | now left]. }
    destruct (f_a st * y <? 0) eqn:E2.
    { destruct (IH (mkBisection (f_a st) (f_b st) i (current_a st) c)
                   (extend w [] [(Fn_f, c)])) as (s & cs & -> & Hs).
      exists s, ((Fn_f, c) :: cs). split; [f_equal; world_eq_double|].
      destruct s as [st'|[[c' n]|]|e]; simpl in Hs.
      - destruct Hs as (Hc & Ha & Hb).
        repeat split; try assumption. now apply (clean_cons f Fn_f c y).
      - destruct Hs as (Hc & Hn & Hy).
        split; [now apply (clean_cons f Fn_f c y)|]. split; [now right|].
        exact Hy.
      - destruct Hs as (cs0 & x & e & -> & Hc & Hx).
        exists ((Fn_f, c) :: cs0), x, e.
        repeat split; [now apply (clean_cons f Fn_f c y) | exact Hx].
      - exact Hs. }
    destruct (y * f_b st <? 0) eqn:E3.
    { destruct (IH (mkBisection (f_a st) (f_b st) i c (current_b st))
                   (extend w [] [(Fn_f, c)])) as (s & cs & -> & Hs).
      exists s, ((Fn_f, c) :: cs). split; [f_equal; world_eq_double|].
      destruct s as [st'|[[c' n]|]|e]; simpl in Hs.
      - destruct Hs as (Hc & Ha & Hb).
        repeat split; try assumption. now apply (clean_cons f Fn_f c y).
      - destruct Hs as (Hc & Hn & Hy).
        split; [now apply (clean_cons f Fn_f c y)|]. split; [now right|].
        exact Hy.
      - destruct Hs as (cs0 & x & e & -> & Hc & Hx).
        exists ((Fn_f, c) :: cs0), x, e.
        repeat split; [now apply (clean_cons f Fn_f c y) | exact Hx].
      - exact Hs. }
    exists (Returned (Some (c, i))), [(Fn_f, c)]. split; [reflexivity|].
    split; [now apply (clean_cons f Fn_f c y); [|constructor]|].
    split; [now left|]. exists y. split; [exact Ec|]. right. now repeat split.
Qed.



(** ** When the result is [None]

    On doubles, whatever its arguments are, [bisection] raises nothing: it
    returns [None] or a pair.  It returns [None] in these cases and in no
    other: [a >= b]; [float(a)] or [float(b)] raises [OverflowError], the
    bound being an integer beyond the range of doubles; the evaluator raised
    at a point that was evaluated; the computed product [f(a) * f(b)] is
    above zero. *)
Theorem bisection_none_causes
    (a b : number) (f : evaluator) (epsilon : double) (max_iter : Z)
    (w : world) :
  exists r out cs,
    bisection a b f epsilon max_iter w = (Ok r, extend w out cs) /\
    (r = None <->
     ge a b = true \/
     as_double a = None \/
     as_double b = None \/
     (exists x e, In (Fn_f, x) cs /\ f x = Raises e) \/
     (exists x_a x_b u v,
        as_double a = Some x_a /\ as_double b = Some x_b /\
        f x_a = Ok u /\ f x_b = Ok v /\ (0 <? u * v) = true)).
Proof.
  cbv [bisection def bind when return_ ret try_except call float raise print].
  destruct (ge a b) eqn:Ege.
  { exists None, [], []. rewrite extend_nil_double. split; [reflexivity|].
    split; auto. }
  destruct (as_double a) as [x_a|] eqn:Ea.
  2:{ exists None, [], []. rewrite extend_nil_double. split; [reflexivity|].
      split; auto. }
  destruct (f x_a) as [u|e] eqn:Eu.
  2:{ exists None, [], [(Fn_f, x_a)]. split; [f_equal; world_eq_double|].
      split; [|reflexivity]. intros _. right; right; right; left.
      exists x_a, e. split; [now left | exact Eu]. }
  destruct (as_double b) as [x_b|] eqn:Eb.
  2:{ exists None, [], [(Fn_f, x_a)]. split; [f_equal; world_eq_double|].
      split; auto. }
  destruct (f x_b) as [v|e] eqn:Ev.
  2:{ exists None, [], [(Fn_f, x_a); (Fn_f, x_b)].
      split; [f_equal; world_eq_double|].
      split; [|reflexivity]. intros _. right; right; right; left.
      exists x_b, e. split; [right; now left | exact Ev]. }
  assert (Hc2 : clean f [(Fn_f, x_a); (Fn_f, x_b)]).
  { apply (clean_cons f Fn_f x_a u _ Eu), (clean_cons f Fn_f x_b v _ Ev).
    constructor. }
  destruct (0 <? u * v) eqn:Euv.
  { exists None, [], [(Fn_f, x_a); (Fn_f, x_b)].
    split; [f_equal; world_eq_double|].
    split; [|reflexivity]. intros _. right; right; right; right.
    now exists x_a, x_b, u, v. }
  assert (Hsome : forall (p : double * Z) cs,
    clean f cs ->
    Some p = None <->
     false = true \/ Some x_a = None \/ Some x_b = None \/
     (exists x e, In (Fn_f, x) cs /\ f x = Raises e) \/
     (exists x_a0 x_b0 u0 v0,
        Some x_a = Some x_a0 /\ Some x_b = Some x_b0 /\
        f x_a0 = Ok u0 /\ f x_b0 = Ok v0 /\ (0 <? u0 * v0) = true)).
  { intros p cs Hc. split; [discriminate|].
    intros [H|[H|[H|[(x & e & Hin & Hx)|H]]]]; try discriminate.
    - exfalso. exact (clean_no_raise _ _ _ _ _ Hc Hin Hx).
    - destruct H as (x_a0 & x_b0 & u0 & v0 & H1 & H2 & H3 & H4 & H5).
      injection H1 as <-. injection H2 as <-. congruence. }
  destruct (abs u <? epsilon) eqn:E3.
  { exists (Some (x_a, 0%Z)), [], [(Fn_f, x_a); (Fn_f, x_b)].
    split; [f_equal; world_eq_double | now apply Hsome]. }
  destruct (abs v <? epsilon) eqn:E4.
  { exists (Some (x_b, 0%Z)), [], [(Fn_f, x_a); (Fn_f, x_b)].
    split; [f_equal; world_eq_double | now apply Hsome]. }
  match goal with
  | |- context [for_ ?xs ?body ?st ?w1] =>
      destruct (bisection_loop_double f epsilon xs st w1)
        as (s & cs & -> & Hs)
  end.
  destruct s as [st'|[[c n]|]|e].
  - destruct Hs as (Hc & _).
    exists (Some ((current_a st' + current_b st') / 2, max_iter)),
      [bisection_notice max_iter], ([(Fn_f, x_a); (Fn_f, x_b)] ++ cs).
    split; [f_equal; world_eq_double|].
    apply Hsome. apply Forall_app. now split.
  - destruct Hs as (Hc & _).
    exists (Some (c, n)), [], ([(Fn_f, x_a); (Fn_f, x_b)] ++ cs).
    split; [f_equal; world_eq_double|].
    apply Hsome. apply Forall_app. now split.
  - destruct Hs as (cs0 & x & e & -> & Hc & Hx).
    exists None, [], ([(Fn_f, x_a); (Fn_f, x_b)] ++ cs0 ++ [(Fn_f, x)]).
    split; [f_equal; world_eq_double|].
    split; [|reflexivity]. intros _. right; right; right; left.
    exists x, e. split; [|exact Hx].
    apply in_or_app. right. apply in_or_app. right. now left.
  - contradiction.
Qed.


(** ** What a returned pair means *)




(** On doubles a returned point can lie outside [[a, b]]: over
    [[2^1023, 1.5 * 2^1023]] the sum of the bounds overflows, and the
    midpoint the call returns is infinite. *)
Lemma bisection_midpoint_overflows :
  exists w',
    bisection (Float 0x1p1023) (Float 0x1.8p1023) far_step 0.5 1 w0
    = (Ok (Some (infinity, 1%Z)), w') /\
    (0x1.8p1023 <? infinity) = true.
Proof. eexists. split; vm_compute; reflexivity. Qed.

(** An integer bound beyond the range of doubles: [float(b)] raises
    [OverflowError] inside the [try] after [f(float(a))] was called, and
    the call returns [None]. *)
Lemma bisection_none_causes_witness :
  exists out cs,
    bisection (Int 0) (Int (10 ^ 400)) parabola 0x1p-20 50 w0
    = (Ok None, extend w0 out cs).
Proof.
  destruct (bisection_none_causes (Int 0) (Int (10 ^ 400)) parabola
              0x1p-20 50 w0) as (r & out & cs & E & H).
  exists out, cs. rewrite E. f_equal. f_equal. apply H.
  right; right; left. vm_compute. reflexivity.
Defined.

End DoubleFacts.

(** * The example function and its derivatives *)

Section RealFacts.
Import Reals Lra.
Local Open Scope R_scope.

(** [dfunc] is the derivative of [func], at every point. *)
Theorem dfunc_is_derivative (x : R) : derivable_pt_lim func x (dfunc x).
Proof.
  assert (H : derivable_pt_lim
                (comp exp (mult_real_fct (-2) id) + (fun y => y ^ 2)
                 - fct_cte 1)%F
                x (exp (-2 * x) * (-2 * 1) + INR 2 * x ^ pred 2 - 0)).
  { apply derivable_pt_lim_minus;
      [apply derivable_pt_lim_plus;
         [apply derivable_pt_lim_comp;
            [apply derivable_pt_lim_scal, derivable_pt_lim_id
            | apply derivable_pt_lim_exp]
         | apply derivable_pt_lim_pow]
      | apply derivable_pt_lim_const]. }
  replace (dfunc x) with (exp (-2 * x) * (-2 * 1) + INR 2 * x ^ pred 2 - 0)
    by (unfold dfunc; simpl; ring).
  exact H.
Qed.

(** [ddfunc] is the derivative of [dfunc], at every point. *)
Theorem ddfunc_is_derivative (x : R) : derivable_pt_lim dfunc x (ddfunc x).
Proof.
  assert (H : derivable_pt_lim
                (mult_real_fct (-2) (comp exp (mult_real_fct (-2) id))
                 + mult_real_fct 2 id)%F
                x (-2 * (exp (-2 * x) * (-2 * 1)) + 2 * 1)).
  { apply derivable_pt_lim_plus;
      [apply derivable_pt_lim_scal, derivable_pt_lim_comp;
         [apply derivable_pt_lim_scal, derivable_pt_lim_id
         | apply derivable_pt_lim_exp]
      | apply derivable_pt_lim_scal, derivable_pt_lim_id]. }
  replace (ddfunc x) with (-2 * (exp (-2 * x) * (-2 * 1)) + 2 * 1)
    by (unfold ddfunc; ring).
  exact H.
Qed.

Lemma func_continuous : continuity func.
Proof. unfold func. reg. Qed.

(** [ddfunc] is positive everywhere, so [func] is convex and the test
    [f(x) * ddf(x) > 0] by which [newton] picks its starting point holds on
    these functions exactly where [func] is positive. *)
Theorem ddfunc_positive (x : R) :
  0 < ddfunc x /\ (0 < func x * ddfunc x <-> 0 < func x).
Proof.
  assert (Hp : 0 < ddfunc x).
  { unfold ddfunc. pose proof (exp_pos (-2 * x)). lra. }
  split; [exact Hp|]. split; intro H.
  - destruct (Rle_or_lt (func x) 0) as [Hn|Hn]; [|exact Hn].
    exfalso. assert (func x * ddfunc x <= 0) by nra. lra.
  - now apply Rmult_lt_0_compat.
Qed.

(** [func] vanishes at [0], the left bound of the interval the solvers are
    meant for, and at a second point strictly between [1/2] and [1]. *)
Theorem func_roots :
  func 0 = 0 /\ exists z, 1 / 2 < z < 1 /\ func z = 0.
Proof.
  split.
  - unfold func. replace (-2 * 0) with 0 by ring. rewrite exp_0. ring.
  - assert (Hl : func (1 / 2) < 0).
    { unfold func. replace (-2 * (1 / 2)) with (Ropp 1) by field.
      rewrite exp_Ropp.
      assert (2 < exp 1) by (pose proof (exp_ineq1 1 ltac:(lra)); lra).
      assert (/ exp 1 < / 2)
        by (apply Rinv_lt_contravar; [nra | assumption]).
      simpl. lra. }
    assert (Hr : 0 < func 1).
    { unfold func. pose proof (exp_pos (-2 * 1)). simpl. lra. }
    destruct (IVT func (1 / 2) 1 func_continuous ltac:(lra) Hl Hr)
      as (z & [Hz1 Hz2] & Hz).
    exists z. split; [|exact Hz].
    split.
    + destruct Hz1 as [Hz1|Hz1]; [exact Hz1|].
      exfalso. rewrite <- Hz1 in Hz. lra.
    + destruct Hz2 as [Hz2|Hz2]; [exact Hz2|].
      exfalso. rewrite Hz2 in Hz. lra.
Qed.

End RealFacts.
